(** * minimize-ninja: the [slim_file] pipeline of [minimize_ninja/cli.py]

    A shallow embedding of [slim_file]: the quality preset lookup, the two
    quality warnings, the TIFF and PNG conversion loops, the reference scan
    over the metadata YAML files, the resize and optimize loops and the size
    summaries.

    Python values that the code treats dynamically (the YAML objects) are
    embedded as a small tree of dynamic values with the exceptions Python
    raises on them.  The image class of [minimize_ninja/keynote.py] is not
    part of the sources at hand: its three stage methods are taken as
    parameters (record [collaborators]) and its reference lists are modelled
    from the specification.

    Floats: [resize_factor] and the reduction percentages are Python floats.
    They are embedded as rationals ([Q]); the constants the code compares
    against or assigns (2.0, 1.5, 1.0, 100.0) are exact in both. *)

From Stdlib Require Import ZArith QArith String List Bool Lia.
From Stdlib Require Import Sorted.
Import ListNotations.

Local Open Scope string_scope.
Local Open Scope list_scope.
Local Open Scope Z_scope.

(* ================================================================== *)
(** * Python values, dictionaries and exceptions                        *)
(* ================================================================== *)

Module Py.

(** The exceptions the modelled code can raise.  [CollaboratorError] is an
    exception raised inside a collaborator (codec, image class); its name is
    carried along. *)
Inductive exn : Type :=
| KeyError (k : string)
| AttributeError
| TypeError
| ZeroDivisionError
| CollaboratorError (name : string).

(** A parsed YAML value.  No proof below goes by induction on values. *)
#[local] Unset Elimination Schemes.
Inductive value : Type :=
| VNone
| VBool (b : bool)
| VInt (n : Z)
| VStr (s : string)
| VList (l : list value)
| VDict (d : list (string * value)).
#[local] Set Elimination Schemes.

(** A dictionary with string keys, in insertion order. *)
Definition dict : Type := list (string * value).

Fixpoint lookup {A : Type} (k : string) (d : list (string * A)) : option A :=
  match d with
  | [] => None
  | (k', v) :: d' => if String.eqb k k' then Some v else lookup k d'
  end.

(** [d[k]] *)
Definition getitem (d : dict) (k : string) : exn + value :=
  match lookup k d with
  | Some v => inr v
  | None => inl (KeyError k)
  end.

(** [v.get(k, default)]: only a dict has the method. *)
Definition get (v : value) (k : string) (default : value) : exn + value :=
  match v with
  | VDict d => inr (match lookup k d with Some x => x | None => default end)
  | _ => inl AttributeError
  end.

(** [v == s] for a string literal [s]. *)
Definition eq_str (v : value) (s : string) : bool :=
  match v with
  | VStr s' => String.eqb s' s
  | _ => false
  end.

(** [sub in s] on strings: substring test. *)
Fixpoint contains (sub s : string) : bool :=
  if String.prefix sub s then true
  else match s with
       | EmptyString => false
       | String _ s' => contains sub s'
       end.

(** [needle in v] for a string literal [needle]: key membership on a dict,
    substring on a string, element membership on a list, [TypeError] on a
    value that is not iterable. *)
Definition contains_str (needle : string) (v : value) : exn + bool :=
  match v with
  | VDict d => inr (match lookup needle d with Some _ => true | None => false end)
  | VStr s => inr (contains needle s)
  | VList l => inr (existsb (fun x => eq_str x needle) l)
  | VNone | VBool _ | VInt _ => inl TypeError
  end.

(** Hashable values as dictionary keys.  [True] and [False] hash and compare
    as [1] and [0]. *)
Inductive key : Type :=
| KNone
| KInt (n : Z)
| KStr (s : string).

Definition key_eqb (a b : key) : bool :=
  match a, b with
  | KNone, KNone => true
  | KInt n, KInt m => Z.eqb n m
  | KStr s, KStr t => String.eqb s t
  | _, _ => false
  end.

(** [hash(v)]: lists and dicts are unhashable. *)
Definition hash (v : value) : exn + key :=
  match v with
  | VNone => inr KNone
  | VBool b => inr (KInt (if b then 1 else 0))
  | VInt n => inr (KInt n)
  | VStr s => inr (KStr s)
  | VList _ | VDict _ => inl TypeError
  end.

(** Sequencing of fallible expressions. *)
Definition and_then {A B : Type} (r : exn + A) (f : A -> exn + B) : exn + B :=
  match r with
  | inl e => inl e
  | inr a => f a
  end.

End Py.

Import Py.

(* ================================================================== *)
(** * Settings and the quality preset                                   *)
(* ================================================================== *)

(** The keyword arguments of [slim_file] other than [keynote_file] and
    [quality]. *)
Record settings : Type := {
  export_pdf : bool;
  pdf_all_stages : bool;
  keep_unpacked : bool;
  resize_factor : Q;
  jpeg_compression : Z;
  png_convert : bool;
  pdf_suffix : string
}.

(** The defaults of the signature of [slim_file]. *)
Definition default_settings : settings :=
  {| export_pdf := false;
     pdf_all_stages := false;
     keep_unpacked := false;
     resize_factor := 2;
     jpeg_compression := 85;
     png_convert := false;
     pdf_suffix := "" |}.

Definition with_preset (rf : Q) (jc : Z) (s : settings) : settings :=
  {| export_pdf := true;
     pdf_all_stages := pdf_all_stages s;
     keep_unpacked := keep_unpacked s;
     resize_factor := rf;
     jpeg_compression := jc;
     png_convert := true;
     pdf_suffix := pdf_suffix s |}.

(** [match quality: case 0 | 1 | 2 | 3] (cli.py, lines 44-62).  A value that
    matches no case falls through the statement. *)
Definition apply_quality (quality : Z) (s : settings) : settings :=
  match quality with
  | 0 => s
  | 1 => with_preset 2 80 s
  | 2 => with_preset (3 # 2) 75 s
  | 3 => with_preset 1 70 s
  | _ => s
  end.

(** [x < y] on the rationals, as a boolean. *)
Definition Qltb (x y : Q) : bool := negb (Qle_bool y x).

Inductive quality_warning : Type :=
| ResizeBelow2
| JpegBelow80.

(* ================================================================== *)
(** * Image records, metadata fragments and the world                   *)
(* ================================================================== *)

(** An object of a metadata YAML file: a dict with a [_pbtype] tag. *)
Definition pyobject : Type := dict.

Inductive reference_kind : Type :=
| SlideReference
| SlideStyleReference.

(** What [add_slide_reference] and [add_slide_style_reference] record: the
    YAML file and the object that refers to the image. *)
Record reference : Type := {
  ref_kind : reference_kind;
  ref_file : string;
  ref_object : pyobject
}.

(** The attributes of an image object that [slim_file] reads: the name and
    the suffix of [filename] (a [Path]) and the four sizes. *)
Record image : Type := {
  filename_name : string;
  filename_suffix : string;
  size_original : Z;
  size_converted : Z;
  size_resized : Z;
  size_optimized : Z;
  references : list reference
}.

(** Modelled from the spec: the methods [add_slide_reference] and
    [add_slide_style_reference] of the image class (keynote.py is missing)
    append a reference record with the fragment identity and the structural
    role of the object to the image; [references] is append-only during
    scanning. *)
Definition add_reference (r : reference) (img : image) : image :=
  {| filename_name := filename_name img;
     filename_suffix := filename_suffix img;
     size_original := size_original img;
     size_converted := size_converted img;
     size_resized := size_resized img;
     size_optimized := size_optimized img;
     references := references img ++ [r] |}.

(** [TiffyYaml(file)]: the file and its parsed content
    [yaml["chunks"][..]["archives"][..]["objects"][..]]. *)
Record archive : Type := { objects : list pyobject }.
Record chunk : Type := { archives : list archive }.
Record TiffyYaml : Type := { yaml_file : string; chunks : list chunk }.

Inductive report : Type :=
| TiffReport
| PngReport
| ResizeReport
| OptimizeReport
| FileReport.

(** The calls [slim_file] makes to its collaborators, in order.  A stage call
    carries the position of the image object among the items of
    [images_dict], the state of the object when the method is entered, and
    the argument.  Debug messages, blank lines of the console and progress
    bars are left out. *)
Inductive event : Type :=
| LogWarning (w : quality_warning)
| Unpack
| LogNoTiff
| Convert (p : nat) (img : image) (jpeg : option Z)
| Resize (p : nat) (img : image) (factor : Q)
| Optimize (p : nat) (img : image) (jpeg : Z)
| LogReduction (r : report) (before after : Z) (percent : Q)
| MetadataSave
| Repack
| RemoveUnpacked
| ExportPdf (suffix : string) (all_stages : bool)
| RemoveRepacked.

(** [images_dict] in insertion order: the image objects are identified by
    their position among its items.  [calls] is the trace so far. *)
Record world : Type := {
  images_dict : list (key * image);
  calls : list event
}.

(** What [slim_file] takes from outside cli.py: the stage methods of the
    image class (they change the image in place or raise), the sizes on disk
    of the original and of the repacked file, and the return code of
    AppleScript. *)
Record collaborators : Type := {
  convert : option Z -> image -> exn + image;
  resize : Q -> image -> exn + image;
  optimize : Z -> image -> exn + image;
  keynote_size : Z;
  repacked_size : Z;
  applescript_code : Z
}.

(* ================================================================== *)
(** * A state and exception monad                                       *)
(* ================================================================== *)

(** A computation changes the world and returns or raises.  The world at the
    raise is kept: what was logged and changed before stays so. *)
Definition M (A : Type) : Type := world -> world * (exn + A).

Definition ret {A : Type} (a : A) : M A := fun w => (w, inr a).

Definition raise {A : Type} (e : exn) : M A := fun w => (w, inl e).

Definition bind {A B : Type} (m : M A) (f : A -> M B) : M B :=
  fun w =>
    match m w with
    | (w', inr a) => f a w'
    | (w', inl e) => (w', inl e)
    end.

Declare Scope monad_scope.
Delimit Scope monad_scope with monad.
Notation "x <- c1 ;; c2" := (bind c1 (fun x => c2))
  (at level 61, c1 at next level, right associativity) : monad_scope.
Notation "c1 ;; c2" := (bind c1 (fun _ => c2))
  (at level 61, right associativity) : monad_scope.
Local Open Scope monad_scope.

Definition lift {A : Type} (r : exn + A) : M A := fun w => (w, r).

Definition get_images : M (list (key * image)) :=
  fun w => (w, inr (images_dict w)).

Definition log (e : event) (w : world) : world :=
  {| images_dict := images_dict w; calls := calls w ++ [e] |}.

Definition call (e : event) : M unit := fun w => (log e w, inr tt).

Definition when (b : bool) (m : M unit) : M unit := if b then m else ret tt.

Fixpoint for_each {A : Type} (f : A -> M unit) (l : list A) : M unit :=
  match l with
  | [] => ret tt
  | x :: l' => f x ;; for_each f l'
  end.

(** Change the image object at position [p] in place; the key stays. *)
Fixpoint alter_image (f : image -> image) (p : nat) (d : list (key * image))
  {struct d} : list (key * image) :=
  match d, p with
  | [], _ => []
  | (k, img) :: d', O => (k, f img) :: d'
  | x :: d', S p' => x :: alter_image f p' d'
  end.

Definition change (f : image -> image) (p : nat) (w : world) : world :=
  {| images_dict := alter_image f p (images_dict w); calls := calls w |}.

Definition store (p : nat) (img : image) (w : world) : world :=
  change (fun _ => img) p w.

(** A stage method called on the image object at position [p]: the call is
    recorded, then the method changes the object or raises.  A position
    outside the dict does not occur (the positions are taken from the dict
    and no item is added or removed); nothing is done there. *)
Definition invoke (ev : nat -> image -> event) (op : image -> exn + image)
  (p : nat) : M unit :=
  fun w =>
    match nth_error (images_dict w) p with
    | None => (w, inr tt)
    | Some (_, img) =>
        match op img with
        | inl e => (log (ev p img) w, inl e)
        | inr img' => (store p img' (log (ev p img) w), inr tt)
        end
    end.

(** [sum([f(image) for image in ...])] over the objects at positions [ps]. *)
Definition sum_sizes (f : image -> Z) (ps : list nat) : M Z :=
  fun w =>
    (w, inr (fold_right Z.add 0
               (map (fun p => match nth_error (images_dict w) p with
                              | Some (_, img) => f img
                              | None => 0
                              end) ps))).

(** [(1.0 - (after / before)) * 100.0]: the division raises on a zero
    divisor.  The value is the exact quotient, where Python rounds to a
    float; only the condition of the raise is used below, never the
    value. *)
Definition reduction (before after : Z) : exn + Q :=
  if before =? 0 then inl ZeroDivisionError
  else inr ((1 - inject_Z after / inject_Z before) * 100)%Q.

(** The totals of two size fields, the reduction and the message. *)
Definition summarize (r : report) (f_before f_after : image -> Z)
  (ps : list nat) : M unit :=
  before <- sum_sizes f_before ps ;;
  after <- sum_sizes f_after ps ;;
  percent <- lift (reduction before after) ;;
  call (LogReduction r before after percent).

(** The positions of the images whose suffix contains [sub], in dict
    order. *)
Fixpoint select_from (i : nat) (sub : string) (d : list (key * image))
  : list nat :=
  match d with
  | [] => []
  | (_, img) :: d' =>
      if contains sub (filename_suffix img)
      then i :: select_from (S i) sub d'
      else select_from (S i) sub d'
  end.

Definition select (sub : string) (d : list (key * image)) : list nat :=
  select_from 0 sub d.

Definition positions (d : list (key * image)) : list nat :=
  seq 0 (length d).

Definition nonempty {A : Type} (l : list A) : bool :=
  match l with [] => false | _ :: _ => true end.

(* ================================================================== *)
(** * The reference scan (cli.py, lines 169-191)                        *)
(* ================================================================== *)

(** The position of the item of the dict with key [k]. *)
Fixpoint find_key_from (i : nat) (k : key) (d : list (key * image))
  : option nat :=
  match d with
  | [] => None
  | (k', _) :: d' =>
      if key_eqb k k' then Some i else find_key_from (S i) k d'
  end.

Definition find_key (k : key) (d : list (key * image)) : option nat :=
  find_key_from 0 k d.

(** [if identifier in images_dict: images_dict[identifier].method(...)]:
    the membership test hashes the identifier. *)
Definition attach (identifier : value) (method : image -> image) : M unit :=
  fun w =>
    match hash identifier with
    | inl e => (w, inl e)
    | inr k =>
        match find_key k (images_dict w) with
        | Some p => (change method p w, inr tt)
        | None => (w, inr tt)
        end
    end.

(** [object.get("data", {}).get("identifier", 0)] *)
Definition direct_identifier (obj : pyobject) : exn + value :=
  and_then (get (VDict obj) "data" (VDict []))
    (fun data => get data "identifier" (VInt 0)).

(** [object.get("slideProperties", {}).get("fill", {})] *)
Definition style_fill (obj : pyobject) : exn + value :=
  and_then (get (VDict obj) "slideProperties" (VDict []))
    (fun props => get props "fill" (VDict [])).

(** ["image" in object.get("slideProperties", {}).get("fill", {})] *)
Definition style_has_image (obj : pyobject) : exn + bool :=
  and_then (style_fill obj) (contains_str "image").

(** [object.get("slideProperties", {}).get("fill", {}).get("image", {})
    .get("imagedata", {}).get("identifier", 0)] *)
Definition style_identifier (obj : pyobject) : exn + value :=
  and_then (style_fill obj) (fun fill =>
  and_then (get fill "image" (VDict [])) (fun img =>
  and_then (get img "imagedata" (VDict [])) (fun data =>
  get data "identifier" (VInt 0)))).

Definition slide_reference (f : TiffyYaml) (obj : pyobject) : reference :=
  {| ref_kind := SlideReference; ref_file := yaml_file f; ref_object := obj |}.

Definition slide_style_reference (f : TiffyYaml) (obj : pyobject)
  : reference :=
  {| ref_kind := SlideStyleReference;
     ref_file := yaml_file f;
     ref_object := obj |}.

(** [image.add_slide_reference(yaml_file, object)] *)
Definition add_slide_reference (f : TiffyYaml) (obj : pyobject)
  : image -> image :=
  add_reference (slide_reference f obj).

(** [image.add_slide_style_reference(yaml_file, object)] *)
Definition add_slide_style_reference (f : TiffyYaml) (obj : pyobject)
  : image -> image :=
  add_reference (slide_style_reference f obj).

(** The body of the innermost loop: the two [if object["_pbtype"] == ...]
    statements. *)
Definition scan_object (f : TiffyYaml) (obj : pyobject) : M unit :=
  tag <- lift (getitem obj "_pbtype") ;;
  when (eq_str tag "TSD.ImageArchive")
    (identifier <- lift (direct_identifier obj) ;;
     attach identifier (add_slide_reference f obj)) ;;
  tag <- lift (getitem obj "_pbtype") ;;
  when (eq_str tag "KN.SlideStyleArchive")
    (has_image <- lift (style_has_image obj) ;;
     when has_image
       (identifier <- lift (style_identifier obj) ;;
        attach identifier (add_slide_style_reference f obj))).

Definition scan_file (f : TiffyYaml) : M unit :=
  for_each (fun c =>
    for_each (fun a =>
      for_each (scan_object f) (objects a)) (archives c)) (chunks f).

(** [all_yaml] is the list built from [kf.path_index.iterdir()], in the order
    the directory listing yields the files. *)
Definition scan (all_yaml : list TiffyYaml) : M unit :=
  for_each scan_file all_yaml.

(* ================================================================== *)
(** * [slim_file]                                                       *)
(* ================================================================== *)

(** The two warnings (cli.py, lines 64-84). *)
Definition warn_quality (s : settings) : M unit :=
  when (Qltb (resize_factor s) 2) (call (LogWarning ResizeBelow2)) ;;
  when (jpeg_compression s <? 80) (call (LogWarning JpegBelow80)).

Section Pipeline.

Variable K : collaborators.

(** Lines 102-129: [tiff.convert()] on every TIFF, the summary, the save. *)
Definition convert_tiffs (tiffies : list nat) : M unit :=
  if nonempty tiffies then
    for_each (invoke (fun p img => Convert p img None) (convert K None))
      tiffies ;;
    summarize TiffReport size_original size_converted tiffies ;;
    call MetadataSave
  else
    call LogNoTiff.

(** Lines 131-156: [png.convert(jpeg_compression=jpeg_compression)]. *)
Definition convert_pngs (s : settings) (pngs : list nat) : M unit :=
  when (nonempty pngs && png_convert s)
    (for_each
       (invoke (fun p img => Convert p img (Some (jpeg_compression s)))
          (convert K (Some (jpeg_compression s)))) pngs ;;
     summarize PngReport size_original size_converted pngs ;;
     call MetadataSave).

(** Lines 193-206: [image.resize(max_ratio_factor=resize_factor)] on every
    item of [images_dict], then the summary over all items. *)
Definition resize_images (s : settings) : M unit :=
  d <- get_images ;;
  for_each
    (invoke (fun p img => Resize p img (resize_factor s))
       (resize K (resize_factor s))) (positions d) ;;
  d <- get_images ;;
  summarize ResizeReport size_converted size_resized (positions d).

(** Lines 215-228: [image.optimize(jpeg_compression=jpeg_compression)]. *)
Definition optimize_images (s : settings) : M unit :=
  d <- get_images ;;
  for_each
    (invoke (fun p img => Optimize p img (jpeg_compression s))
       (optimize K (jpeg_compression s))) (positions d) ;;
  d <- get_images ;;
  summarize OptimizeReport size_resized size_optimized (positions d).

(** Lines 230-273: repack, the summary over the two files, the clean-up and
    the PDF export.  The calls to the file system and to AppleScript are
    recorded as calls that return; the division is the only raise of this
    part that is modelled, so nothing below is said of a run that fails in
    the repack, in a removal or in the export. *)
Definition finish (s : settings) : M unit :=
  call Repack ;;
  percent <- lift (reduction (keynote_size K) (repacked_size K)) ;;
  call (LogReduction FileReport (keynote_size K) (repacked_size K) percent) ;;
  when (negb (keep_unpacked s)) (call RemoveUnpacked) ;;
  when (export_pdf s)
    (call (ExportPdf (pdf_suffix s) (pdf_all_stages s)) ;;
     when (applescript_code K =? 0) (call RemoveRepacked)).

(** What follows the warnings: [tiffies] and [pngs] are both taken from
    [images_dict] before any conversion. *)
Definition pipeline (s : settings) (all_yaml : list TiffyYaml) : M unit :=
  call Unpack ;;
  d <- get_images ;;
  let tiffies := select "tif" d in
  let pngs := select "png" d in
  convert_tiffs tiffies ;;
  convert_pngs s pngs ;;
  scan all_yaml ;;
  resize_images s ;;
  optimize_images s ;;
  finish s.

Definition slim_file (quality : Z) (s : settings) (all_yaml : list TiffyYaml)
  : M unit :=
  let s := apply_quality quality s in
  warn_quality s ;;
  pipeline s all_yaml.

End Pipeline.

(** A run starts from the images of the unpacked file and an empty trace. *)
Definition initial (d : list (key * image)) : world :=
  {| images_dict := d; calls := [] |}.

(** ** Observations on a trace *)

(** The four settings a preset assigns. *)
Definition preset_of (s : settings) : Q * Z * bool * bool :=
  (resize_factor s, jpeg_compression s, png_convert s, export_pdf s).

(** The settings no preset touches. *)
Definition untouched (s : settings) : bool * bool * string :=
  (pdf_all_stages s, keep_unpacked s, pdf_suffix s).

(** The quality warnings of a trace. *)
Definition warning_of (e : event) : list quality_warning :=
  match e with LogWarning w => [w] | _ => [] end.

Definition warnings (t : list event) : list quality_warning :=
  flat_map warning_of t.

(** The PNG conversions of a trace: [convert] called with a JPEG quality. *)
Definition png_conversion_of (e : event) : list (nat * Z) :=
  match e with Convert p _ (Some q) => [(p, q)] | _ => [] end.

Definition png_conversions (t : list event) : list (nat * Z) :=
  flat_map png_conversion_of t.

(** The resize calls of a trace: position and factor. *)
Definition resize_call_of (e : event) : list (nat * Q) :=
  match e with Resize p _ f => [(p, f)] | _ => [] end.

Definition resize_calls (t : list event) : list (nat * Q) :=
  flat_map resize_call_of t.

(** The optimize calls of a trace: position and JPEG quality. *)
Definition optimize_call_of (e : event) : list (nat * Z) :=
  match e with Optimize p _ q => [(p, q)] | _ => [] end.

Definition optimize_calls (t : list event) : list (nat * Z) :=
  flat_map optimize_call_of t.

(** The warnings the effective settings call for, in the order of the two
    tests. *)
Definition due_warnings (s : settings) : list quality_warning :=
  (if Qltb (resize_factor s) 2 then [ResizeBelow2] else []) ++
  (if jpeg_compression s <? 80 then [JpegBelow80] else []).

(** The exception of an outcome. *)
Definition error_of {A : Type} (r : exn + A) : option exn :=
  match r with inl e => Some e | inr _ => None end.

(** The exception a recorded stage call ended with, if it raised. *)
Definition stage_failure (K : collaborators) (e : event) : option exn :=
  match e with
  | Convert _ img jpeg => error_of (convert K jpeg img)
  | Resize _ img factor => error_of (resize K factor img)
  | Optimize _ img jpeg => error_of (optimize K jpeg img)
  | _ => None
  end.

(** A trace and the exception it ended with agree on the stage calls: a
    stage call that raised is the last event and its exception is the
    outcome. *)
Fixpoint consistent (K : collaborators) (t : list event)
  (raised : option exn) : Prop :=
  match t with
  | [] => True
  | c :: t' =>
      match stage_failure K c with
      | Some e => t' = [] /\ raised = Some e
      | None => consistent K t' raised
      end
  end.

(** A computation only appends to the trace, consistently. *)
Definition sound (K : collaborators) {A : Type} (m : M A) : Prop :=
  forall w, exists t,
    calls (fst (m w)) = calls w ++ t /\
    consistent K t (error_of (snd (m w))).

(** A computation leaves an observation of the world as it is. *)
Definition preserves {X A : Type} (obs : world -> X) (m : M A) : Prop :=
  forall w, obs (fst (m w)) = obs w.

Definition ignores_event {X : Type} (obs : world -> X) (e : event) : Prop :=
  forall w, obs (log e w) = obs w.

Definition ignores_changes {X : Type} (obs : world -> X) : Prop :=
  forall f p w, obs (change f p w) = obs w.

(** The kinds of events, by the part of [slim_file] that makes the call. *)
Inductive kind : Type :=
| QualityWarning
| TiffConversion
| PngConversion
| Resizing
| Optimizing
| Other.

Definition kind_of (e : event) : kind :=
  match e with
  | LogWarning _ => QualityWarning
  | Convert _ _ None => TiffConversion
  | Convert _ _ (Some _) => PngConversion
  | Resize _ _ _ => Resizing
  | Optimize _ _ _ => Optimizing
  | _ => Other
  end.

(** An observation that sees events of kind [k] at most, and no change of
    an image. *)
Definition blind_except {X : Type} (obs : world -> X) (k : kind) : Prop :=
  ignores_changes obs /\
  forall e, kind_of e <> k -> ignores_event obs e.

(** The keys of the dict, in order. *)
Definition keys (w : world) : list key := map fst (images_dict w).

(** An image with further references appended. *)
Definition with_more_references (img : image) (rs : list reference) : image :=
  {| filename_name := filename_name img;
     filename_suffix := filename_suffix img;
     size_original := size_original img;
     size_converted := size_converted img;
     size_resized := size_resized img;
     size_optimized := size_optimized img;
     references := references img ++ rs |}.

(** [k in images_dict] *)
Definition has_key (k : key) (d : list (key * image)) : bool :=
  match find_key k d with Some _ => true | None => false end.

(** The identifier the scanner resolves on an object of one of the two
    recognised types, as a key: on a [TSD.ImageArchive] the identifier of
    [data], on a [KN.SlideStyleArchive] whose fill has an image the
    identifier of its image data. *)
Definition resolved_key (obj : pyobject) : option key :=
  match getitem obj "_pbtype" with
  | inl _ => None
  | inr tag =>
      if eq_str tag "TSD.ImageArchive" then
        match and_then (direct_identifier obj) hash with
        | inr k => Some k
        | inl _ => None
        end
      else if eq_str tag "KN.SlideStyleArchive" then
        match style_has_image obj with
        | inr true =>
            match and_then (style_identifier obj) hash with
            | inr k => Some k
            | inl _ => None
            end
        | _ => None
        end
      else None
  end.

(** A direct object without identifier: no [data], or a [data] dict without
    [identifier]. *)
Definition lacks_direct_identifier (obj : pyobject) : Prop :=
  lookup "data" obj = None \/
  exists data,
    lookup "data" obj = Some (VDict data) /\ lookup "identifier" data = None.

(** A style object whose fill has an image dict, without identifier: no
    [imagedata], or an [imagedata] dict without [identifier]. *)
Definition lacks_style_identifier (obj : pyobject) : Prop :=
  exists fill img,
    style_fill obj = inr (VDict fill) /\
    lookup "image" fill = Some (VDict img) /\
    (lookup "imagedata" img = None \/
     exists data,
       lookup "imagedata" img = Some (VDict data) /\
       lookup "identifier" data = None).

(** A style object without the image link: no [slideProperties], or no
    [fill] in it, or no [image] in the fill. *)
Definition lacks_style_image (obj : pyobject) : Prop :=
  lookup "slideProperties" obj = None \/
  exists props,
    lookup "slideProperties" obj = Some (VDict props) /\
    (lookup "fill" props = None \/
     exists fill,
       lookup "fill" props = Some (VDict fill) /\
       lookup "image" fill = None).

(** From [w] to [w'] every image kept its place and key and gained
    references that all satisfy [P], and nothing else changed in it. *)
Definition grows (P : reference -> Prop) (w w' : world) : Prop :=
  forall p k img,
    nth_error (images_dict w) p = Some (k, img) ->
    exists new,
      nth_error (images_dict w') p = Some (k, with_more_references img new) /\
      Forall P new.

Definition grows_by (P : reference -> Prop) {A : Type} (m : M A) : Prop :=
  forall w w' a, m w = (w', inr a) -> grows P w w'.

(** The number of references held by the images of a dict. *)
Definition reference_count (d : list (key * image)) : nat :=
  fold_right (fun x n => (length (references (snd x)) + n)%nat) 0%nat d.


(* ================================================================== *)
(** * Concrete inputs                                                   *)
(* ================================================================== *)

Module Sample.

(** Stage methods that return and leave the image as it is; a file of 10
    bytes repacked to 5; AppleScript returns 0. *)
Definition passthrough : collaborators :=
  {| convert := fun _ img => inr img;
     resize := fun _ img => inr img;
     optimize := fun _ img => inr img;
     keynote_size := 10;
     repacked_size := 5;
     applescript_code := 0 |}.

(** As [passthrough], but the conversion of [bad.tiff] cannot decode the
    file. *)
Definition undecodable : collaborators :=
  {| convert := fun _ img =>
       if String.eqb (filename_name img) "bad.tiff"
       then inl (CollaboratorError "UnsupportedFormatError")
       else inr img;
     resize := fun _ img => inr img;
     optimize := fun _ img => inr img;
     keynote_size := 10;
     repacked_size := 5;
     applescript_code := 0 |}.

Definition picture (name suffix : string) (size : Z) : image :=
  {| filename_name := name;
     filename_suffix := suffix;
     size_original := size;
     size_converted := size;
     size_resized := size;
     size_optimized := size;
     references := [] |}.

Definition png : image := picture "a.png" ".png" 500000.
Definition bad_tiff : image := picture "bad.tiff" ".tiff" 1000000.
Definition good_tiff : image := picture "good.tiff" ".tiff" 1000000.

Definition one_png : list (key * image) := [(KInt 7, png)].
Definition two_tiffs : list (key * image) :=
  [(KInt 1, bad_tiff); (KInt 2, good_tiff)].
Definition png_with_key_zero : list (key * image) := [(KInt 0, png)].

(** A [TSD.ImageArchive] that names image 7, and one that names image 99. *)
Definition direct (n : Z) : pyobject :=
  [("_pbtype", VStr "TSD.ImageArchive");
   ("data", VDict [("identifier", VInt n)])].

(** A [TSD.ImageArchive] without [data]. *)
Definition direct_without_data : pyobject :=
  [("_pbtype", VStr "TSD.ImageArchive")].

(** A [KN.SlideStyleArchive] whose fill is a colour. *)
Definition style_with_color : pyobject :=
  [("_pbtype", VStr "KN.SlideStyleArchive");
   ("slideProperties",
    VDict [("fill", VDict [("color", VDict [("model", VStr "rgb")])])])].

(** A [KN.SlideStyleArchive] without [slideProperties]. *)
Definition style_without_properties : pyobject :=
  [("_pbtype", VStr "KN.SlideStyleArchive")].

(** A [KN.SlideStyleArchive] whose fill has an image without [imagedata]. *)
Definition style_without_imagedata : pyobject :=
  [("_pbtype", VStr "KN.SlideStyleArchive");
   ("slideProperties",
    VDict [("fill", VDict [("image", VDict [("technique", VStr "Fit")])])])].

Definition file (name : string) (objs : list pyobject) : TiffyYaml :=
  {| yaml_file := name;
     chunks := [ {| archives := [ {| objects := objs |} ] |} ] |}.

Definition slide_a : TiffyYaml := file "Slide-a.iwa.yaml" [direct 7].
Definition slide_b : TiffyYaml := file "Slide-b.iwa.yaml" [direct 7].

(** The files of the references of the image at position [p]. *)
Definition reference_files (w : world) (p : nat) : list string :=
  match nth_error (images_dict w) p with
  | Some (_, img) => map ref_file (references img)
  | None => []
  end.

End Sample.

(* ================================================================== *)
(** * The command [autopdf]                                             *)
(* ================================================================== *)

(** What one call of [slim_file] finds when it opens the file: every call
    builds its own [KeynoteFile], so the images, the listing of the YAML
    files, the sizes on disk and the return code of AppleScript are those
    of that call. *)
Record opened : Type := {
  environment : collaborators;
  opened_images : list (key * image);
  opened_yaml : list TiffyYaml
}.

(** [kf = KeynoteFile(...)] and [images_dict = kf.images_dict] of a call:
    the images are those of the file opened now, the trace goes on. *)
Definition open_file (o : opened) : M unit :=
  fun w => ({| images_dict := opened_images o; calls := calls w |}, inr tt).

(** The keyword arguments of the three calls of [autopdf]: [export_pdf=True],
    the flag and the suffix; the rest are the defaults of [slim_file]. *)
Definition autopdf_settings (pdf_all_stages : bool) (suffix : string)
  : settings :=
  {| export_pdf := true;
     pdf_all_stages := pdf_all_stages;
     keep_unpacked := false;
     resize_factor := 2;
     jpeg_compression := 85;
     png_convert := false;
     pdf_suffix := suffix |}.

Definition slim_file_on (o : opened) (quality : Z) (s : settings) : M unit :=
  open_file o ;;
  slim_file (environment o) quality s (opened_yaml o).

(** [autopdf] (cli.py, lines 357-366): three calls of [slim_file], with the
    selectors 0, 1 and 2. *)
Definition autopdf (pdf_all_stages : bool) (o0 o1 o2 : opened) : M unit :=
  slim_file_on o0 0 (autopdf_settings pdf_all_stages "_q0") ;;
  slim_file_on o1 1 (autopdf_settings pdf_all_stages "_q1") ;;
  slim_file_on o2 2 (autopdf_settings pdf_all_stages "_q2").

(** ** Further observations on a trace *)

(** The TIFF conversions of a trace: [convert] called without argument. *)
Definition tiff_conversion_of (e : event) : list nat :=
  match e with Convert p _ None => [p] | _ => [] end.

Definition tiff_conversions (t : list event) : list nat :=
  flat_map tiff_conversion_of t.

(** The PDF exports of a trace: suffix and the flag for the stages. *)
Definition export_of (e : event) : list (string * bool) :=
  match e with ExportPdf suffix all_stages => [(suffix, all_stages)] | _ => [] end.

Definition exports (t : list event) : list (string * bool) :=
  flat_map export_of t.

(** What a run does after the last summary: removing the unpacked
    directory, exporting the PDF, deleting the repacked file. *)
Definition cleanup_of (e : event) : list event :=
  match e with
  | RemoveUnpacked | ExportPdf _ _ | RemoveRepacked => [e]
  | _ => []
  end.

Definition cleanup (t : list event) : list event := flat_map cleanup_of t.

Definition repack_of (e : event) : list event :=
  match e with Repack => [e] | _ => [] end.

Definition repacks (t : list event) : list event := flat_map repack_of t.

(** The summaries of a trace. *)
Definition report_of (e : event) : list report :=
  match e with LogReduction r _ _ _ => [r] | _ => [] end.

Definition reports (t : list event) : list report := flat_map report_of t.

(** The stage calls of a trace by the order of the stages: 0 for a TIFF
    conversion, 1 for a PNG conversion, 2 for a resize, 3 for an optimize. *)
Definition stage_rank (e : event) : list nat :=
  match kind_of e with
  | TiffConversion => [0%nat]
  | PngConversion => [1%nat]
  | Resizing => [2%nat]
  | Optimizing => [3%nat]
  | _ => []
  end.

Definition stage_ranks (t : list event) : list nat := flat_map stage_rank t.

(** A computation appends to the trace stage calls of ranks between [lo]
    and [hi], in the order of the ranks. *)
Definition ordered (lo hi : nat) {A : Type} (m : M A) : Prop :=
  forall w, exists t,
    calls (fst (m w)) = calls w ++ t /\
    StronglySorted le (stage_ranks t) /\
    Forall (fun r => (lo <= r <= hi)%nat) (stage_ranks t).

(** A computation that raises leaves an observation as it is. *)
Definition unseen_on_failure {X A : Type} (obs : world -> X) (m : M A)
  : Prop :=
  forall w w' e, m w = (w', inl e) -> obs w' = obs w.

(** The objects of the files in the order of the four loops of lines
    169-172, each with its file. *)
Definition all_objects (all_yaml : list TiffyYaml)
  : list (TiffyYaml * pyobject) :=
  flat_map (fun f =>
    flat_map (fun c =>
      flat_map (fun a => map (pair f) (objects a)) (archives c))
      (chunks f)) all_yaml.

Definition scan_objects (l : list (TiffyYaml * pyobject)) : M unit :=
  for_each (fun fo => scan_object (fst fo) (snd fo)) l.

(** The reference an object of a recognised type stands for. *)
Definition reference_of (f : TiffyYaml) (obj : pyobject) : option reference :=
  match getitem obj "_pbtype" with
  | inl _ => None
  | inr tag =>
      if eq_str tag "TSD.ImageArchive" then Some (slide_reference f obj)
      else if eq_str tag "KN.SlideStyleArchive"
           then Some (slide_style_reference f obj)
           else None
  end.

(** The references the loop body attaches, for one object, to the image at
    position [p] of a dict with the keys of [d]: the reference of the
    object if it resolves to a key that the dict holds at [p]. *)
Definition attached_by (d : list (key * image)) (p : nat)
  (fo : TiffyYaml * pyobject) : list reference :=
  match resolved_key (snd fo) with
  | Some k =>
      match find_key k d with
      | Some p' =>
          if Nat.eqb p' p
          then match reference_of (fst fo) (snd fo) with
               | Some r => [r]
               | None => []
               end
          else []
      | None => []
      end
  | None => []
  end.

(** The references the scan of the files attaches to the image at position
    [p], in the order of the loops. *)
Definition scanned_references (d : list (key * image)) (p : nat)
  (all_yaml : list TiffyYaml) : list reference :=
  flat_map (attached_by d p) (all_objects all_yaml).

(** The object resolves to a key of the dict. *)
Definition matches (d : list (key * image)) (obj : pyobject) : bool :=
  match resolved_key obj with
  | Some k => has_key k d
  | None => false
  end.

(** Further inputs. *)
Module Cases.

Definition upper_tiff : image := Sample.picture "scan.TIF" ".TIF" 1000000.
Definition tiff : image := Sample.picture "photo.tiff" ".tiff" 1000000.

Definition tiff_and_png : list (key * image) :=
  [(KInt 1, tiff); (KInt 7, Sample.png)].

(** An object without [_pbtype]. *)
Definition untagged : pyobject := [("data", VDict [("identifier", VInt 7)])].

(** An object of a type the scan does not look at. *)
Definition drawable : pyobject :=
  [("_pbtype", VStr "TSD.DrawableArchive");
   ("data", VDict [("identifier", VInt 7)])].

(** A style object whose fill has the image 7. *)
Definition style (n : Z) : pyobject :=
  [("_pbtype", VStr "KN.SlideStyleArchive");
   ("slideProperties",
    VDict [("fill",
            VDict [("image",
                    VDict [("imagedata",
                            VDict [("identifier", VInt n)])])])])].

(** A file with an object without [_pbtype] between two objects that name
    image 7. *)
Definition mixed_file : TiffyYaml :=
  Sample.file "Slide-a.iwa.yaml" [Sample.direct 7; untagged; Sample.direct 7].

Definition opened_png : opened :=
  {| environment := Sample.passthrough;
     opened_images := Sample.one_png;
     opened_yaml := [Sample.slide_a] |}.

Definition opened_bad_tiff : opened :=
  {| environment := Sample.undecodable;
     opened_images := Sample.two_tiffs;
     opened_yaml := [] |}.

End Cases.

(* ================================================================== *)
(** * The quality preset                                                *)
(* ================================================================== *)

Lemma apply_quality_out_of_range (q : Z) (s : settings) :
  q < 0 \/ 3 < q -> apply_quality q s = s.
Proof.
  intros H. unfold apply_quality.
  destruct q as [|[[p|p|]|[p|p|]|]|p]; try reflexivity; lia.
Qed.

(** C5: the quality selector is a pure lookup.  Selector 1 gives resize
    factor 2.0, JPEG quality 80, PNG conversion and PDF export on; selector
    2 gives 1.5 and 75; selector 3 gives 1.0 and 70; selector 0 leaves the
    settings of the caller as they are.  For the selectors 1 to 3 the four
    assigned settings are the same whatever the caller passed, and no
    selector touches the remaining settings. *)
Theorem quality_preset_is_a_lookup (s s' : settings) :
  preset_of (apply_quality 1 s) = (2%Q, 80, true, true) /\
  preset_of (apply_quality 2 s) = ((3 # 2)%Q, 75, true, true) /\
  preset_of (apply_quality 3 s) = (1%Q, 70, true, true) /\
  apply_quality 0 s = s /\
  preset_of (apply_quality 1 s) = preset_of (apply_quality 1 s') /\
  preset_of (apply_quality 2 s) = preset_of (apply_quality 2 s') /\
  preset_of (apply_quality 3 s) = preset_of (apply_quality 3 s') /\
  (forall q, untouched (apply_quality q s) = untouched s).
Proof.
  repeat split.
  intros q. unfold apply_quality.
  destruct q as [|[[p|p|]|[p|p|]|]|p]; reflexivity.
Qed.

(** C9: a selector outside 0..3 matches no case: the settings of the caller
    are unchanged, exactly as with selector 0, and the whole run is the run
    of selector 0 (same trace, same images, same outcome). *)
Theorem quality_out_of_range_behaves_as_zero
  (K : collaborators) (q : Z) (s : settings) (all_yaml : list TiffyYaml)
  (w : world) :
  q < 0 \/ 3 < q ->
  apply_quality q s = s /\
  apply_quality q s = apply_quality 0 s /\
  slim_file K q s all_yaml w = slim_file K 0 s all_yaml w.
Proof.
  intros H. pose proof (apply_quality_out_of_range q s H) as E.
  unfold slim_file. rewrite E. repeat split.
Qed.

(* ================================================================== *)
(** * The monad                                                         *)
(* ================================================================== *)

Lemma bind_inr {A B : Type} (m : M A) (f : A -> M B) (w w' : world) (b : B) :
  bind m f w = (w', inr b) ->
  exists w1 a, m w = (w1, inr a) /\ f a w1 = (w', inr b).
Proof.
  unfold bind. destruct (m w) as [w1 [e | a]]; intros H.
  - discriminate.
  - exists w1, a. split; [reflexivity | exact H].
Qed.

(** ** Computations that leave an observation alone *)

Section Preserves.

Context {X : Type} (obs : world -> X).

Lemma preserves_ret {A : Type} (a : A) : preserves obs (ret a).
Proof. intros w. reflexivity. Qed.

Lemma preserves_lift {A : Type} (r : exn + A) : preserves obs (lift r).
Proof. intros w. reflexivity. Qed.

Lemma preserves_get_images : preserves obs get_images.
Proof. intros w. reflexivity. Qed.

Lemma preserves_sum_sizes (f : image -> Z) (ps : list nat) :
  preserves obs (sum_sizes f ps).
Proof. intros w. reflexivity. Qed.

Lemma preserves_bind {A B : Type} (m : M A) (f : A -> M B) :
  preserves obs m -> (forall a, preserves obs (f a)) ->
  preserves obs (bind m f).
Proof.
  intros Hm Hf w. unfold bind. specialize (Hm w).
  destruct (m w) as [w1 [e | a]]; simpl in *.
  - exact Hm.
  - rewrite (Hf a w1). exact Hm.
Qed.

Lemma preserves_when (b : bool) (m : M unit) :
  preserves obs m -> preserves obs (when b m).
Proof. intros Hm. destruct b; [exact Hm | apply preserves_ret]. Qed.

Lemma preserves_for_each {A : Type} (f : A -> M unit) (l : list A) :
  (forall x, preserves obs (f x)) -> preserves obs (for_each f l).
Proof.
  intros Hf. induction l as [| x l IH]; simpl.
  - apply preserves_ret.
  - apply preserves_bind; [apply Hf | intros _; exact IH].
Qed.

Lemma preserves_call (e : event) :
  ignores_event obs e -> preserves obs (call e).
Proof. intros H w. apply H. Qed.

Lemma preserves_invoke (ev : nat -> image -> event)
  (op : image -> exn + image) (p : nat) :
  (forall q img, ignores_event obs (ev q img)) -> ignores_changes obs ->
  preserves obs (invoke ev op p).
Proof.
  intros Hev Hch w. unfold invoke.
  destruct (nth_error (images_dict w) p) as [[k img] |]; [| reflexivity].
  destruct (op img) as [e | img']; simpl.
  - apply Hev.
  - unfold store. rewrite Hch. apply Hev.
Qed.

Lemma preserves_attach (v : value) (method : image -> image) :
  ignores_changes obs -> preserves obs (attach v method).
Proof.
  intros Hch w. unfold attach.
  destruct (hash v) as [e | k]; [reflexivity |].
  destruct (find_key k (images_dict w)) as [p |]; simpl.
  - apply Hch.
  - reflexivity.
Qed.

Lemma preserves_summarize (r : report) (f g : image -> Z) (ps : list nat) :
  (forall b a q, ignores_event obs (LogReduction r b a q)) ->
  preserves obs (summarize r f g ps).
Proof.
  intros H. unfold summarize.
  repeat (apply preserves_bind; [| intros ?]);
    auto using preserves_sum_sizes, preserves_lift, preserves_call.
Qed.

Lemma preserves_scan_object (f : TiffyYaml) (obj : pyobject) :
  ignores_changes obs -> preserves obs (scan_object f obj).
Proof.
  intros Hch. unfold scan_object.
  repeat first
    [ apply preserves_lift
    | apply preserves_attach; exact Hch
    | apply preserves_when
    | apply preserves_bind; [| intros ?] ].
Qed.

Lemma preserves_scan (all_yaml : list TiffyYaml) :
  ignores_changes obs -> preserves obs (scan all_yaml).
Proof.
  intros Hch. unfold scan, scan_file.
  repeat (apply preserves_for_each; intros ?).
  apply preserves_scan_object, Hch.
Qed.

End Preserves.

(** ** Observations of the trace and of the keys *)

Lemma projection_log {B : Type} (f : event -> list B) (e : event) (w : world) :
  flat_map f (calls (log e w)) = flat_map f (calls w) ++ f e.
Proof. simpl. rewrite flat_map_app. simpl. rewrite app_nil_r. reflexivity. Qed.

Lemma projection_blind {B : Type} (f : event -> list B) (k : kind) :
  (forall e, kind_of e <> k -> f e = []) ->
  blind_except (fun w => flat_map f (calls w)) k.
Proof.
  intros H. split.
  - intros g p w. reflexivity.
  - intros e He w. rewrite projection_log, (H e He). apply app_nil_r.
Qed.

Lemma alter_image_keys (f : image -> image) (p : nat) (d : list (key * image)) :
  map fst (alter_image f p d) = map fst d.
Proof.
  revert p. induction d as [| [k img] d IH]; intros [| p]; simpl;
    try reflexivity.
  rewrite IH. reflexivity.
Qed.

Lemma keys_blind (k : kind) : blind_except keys k.
Proof.
  split.
  - intros f p w. apply alter_image_keys.
  - intros e _ w. reflexivity.
Qed.

Lemma keys_length (w w' : world) :
  keys w' = keys w -> length (images_dict w') = length (images_dict w).
Proof.
  unfold keys. intros H.
  rewrite <- (length_map fst (images_dict w')), H. apply length_map.
Qed.

Lemma warnings_blind : blind_except (fun w => warnings (calls w)) QualityWarning.
Proof. apply projection_blind. intros [] H; try reflexivity; contradiction. Qed.

Lemma png_conversions_blind :
  blind_except (fun w => png_conversions (calls w)) PngConversion.
Proof.
  apply projection_blind. intros [] H; try reflexivity.
  destruct jpeg; [contradiction | reflexivity].
Qed.

Lemma resize_calls_blind :
  blind_except (fun w => resize_calls (calls w)) Resizing.
Proof. apply projection_blind. intros [] H; try reflexivity; contradiction. Qed.

Lemma optimize_calls_blind :
  blind_except (fun w => optimize_calls (calls w)) Optimizing.
Proof. apply projection_blind. intros [] H; try reflexivity; contradiction. Qed.

(** ** The parts of [slim_file] and what they leave alone *)

Ltac blind H :=
  first [ apply (proj1 H) | apply (proj2 H); simpl; congruence ].

Ltac preserved H :=
  repeat first
    [ apply preserves_ret
    | apply preserves_lift
    | apply preserves_get_images
    | apply preserves_sum_sizes
    | apply preserves_call; blind H
    | apply preserves_invoke; [intros; blind H | blind H]
    | apply preserves_summarize; intros; blind H
    | apply preserves_scan; blind H
    | apply preserves_when
    | apply preserves_for_each; intros
    | apply preserves_bind; [| intros] ].

Section Parts.

Context {X : Type} (obs : world -> X) (k : kind) (K : collaborators).

Hypothesis Hblind : blind_except obs k.

Lemma convert_tiffs_preserves (tiffies : list nat) :
  k <> TiffConversion -> k <> Other ->
  preserves obs (convert_tiffs K tiffies).
Proof.
  intros H1 H2. unfold convert_tiffs.
  destruct (nonempty tiffies); preserved Hblind.
Qed.

Lemma convert_pngs_preserves (s : settings) (pngs : list nat) :
  k <> PngConversion -> k <> Other ->
  preserves obs (convert_pngs K s pngs).
Proof. intros H1 H2. unfold convert_pngs. preserved Hblind. Qed.

Lemma convert_pngs_off (s : settings) (pngs : list nat) :
  png_convert s = false -> preserves obs (convert_pngs K s pngs).
Proof.
  intros H. unfold convert_pngs. rewrite H, andb_false_r.
  apply preserves_ret.
Qed.

Lemma resize_images_preserves (s : settings) :
  k <> Resizing -> k <> Other -> preserves obs (resize_images K s).
Proof. intros H1 H2. unfold resize_images. preserved Hblind. Qed.

Lemma optimize_images_preserves (s : settings) :
  k <> Optimizing -> k <> Other -> preserves obs (optimize_images K s).
Proof. intros H1 H2. unfold optimize_images. preserved Hblind. Qed.

Lemma summarize_preserves (r : report) (f g : image -> Z) (ps : list nat) :
  k <> Other -> preserves obs (summarize r f g ps).
Proof. intros H. preserved Hblind. Qed.

Lemma finish_preserves (s : settings) :
  k <> Other -> preserves obs (finish K s).
Proof. intros H. unfold finish. preserved Hblind. Qed.

Lemma scan_preserves (all_yaml : list TiffyYaml) :
  preserves obs (scan all_yaml).
Proof. apply preserves_scan, Hblind. Qed.

Lemma unpack_preserves : k <> Other -> preserves obs (call Unpack).
Proof. intros H. preserved Hblind. Qed.

(** The pipeline makes no call of kind [k] when [k] is the kind of the
    warnings, or the kind of the PNG conversions and these are off. *)
Lemma pipeline_preserves (s : settings) (all_yaml : list TiffyYaml) :
  k = QualityWarning \/ (k = PngConversion /\ png_convert s = false) ->
  preserves obs (pipeline K s all_yaml).
Proof.
  intros Hk. unfold pipeline.
  assert (Hpng : forall pngs, preserves obs (convert_pngs K s pngs)).
  { intros pngs. destruct Hk as [Hk | [Hk Hoff]].
    - apply convert_pngs_preserves; congruence.
    - apply convert_pngs_off, Hoff. }
  assert (Hother : k <> Other /\ k <> TiffConversion /\ k <> Resizing /\
                   k <> Optimizing).
  { destruct Hk as [Hk | [Hk _]]; repeat split; congruence. }
  destruct Hother as (H1 & H2 & H3 & H4).
  apply preserves_bind; [apply unpack_preserves, H1 | intros _].
  apply preserves_bind; [apply preserves_get_images | intros d].
  cbv zeta.
  apply preserves_bind; [apply convert_tiffs_preserves; assumption | intros _].
  apply preserves_bind; [apply Hpng | intros _].
  apply preserves_bind; [apply scan_preserves | intros _].
  apply preserves_bind; [apply resize_images_preserves; assumption | intros _].
  apply preserves_bind; [apply optimize_images_preserves; assumption | intros _].
  apply finish_preserves, H1.
Qed.

End Parts.

(* ================================================================== *)
(** * The quality warnings                                              *)
(* ================================================================== *)

Lemma Qltb_lt (x y : Q) : Qltb x y = true <-> (x < y)%Q.
Proof.
  unfold Qltb. rewrite negb_true_iff. split.
  - intros H. apply Qnot_le_lt. intros Hle.
    apply Qle_bool_iff in Hle. congruence.
  - intros H. destruct (Qle_bool y x) eqn:E; [| reflexivity].
    apply Qle_bool_iff in E. exfalso. exact (Qlt_not_le _ _ H E).
Qed.

(** The two tests return normally and log the warnings that are due. *)
Lemma warn_quality_run (s : settings) (w : world) :
  warn_quality s w =
  ({| images_dict := images_dict w;
      calls := calls w ++ map LogWarning (due_warnings s) |}, inr tt).
Proof.
  unfold warn_quality, due_warnings, bind, when, call, ret, log.
  destruct w as [d t].
  destruct (Qltb (resize_factor s) 2), (jpeg_compression s <? 80); simpl;
    rewrite <- ?app_assoc, ?app_nil_r; reflexivity.
Qed.

Lemma warnings_of_logged (l : list quality_warning) :
  warnings (map LogWarning l) = l.
Proof. induction l as [| x l IH]; simpl; [| rewrite IH]; reflexivity. Qed.

Lemma slim_file_unfold (K : collaborators) (q : Z) (s : settings)
  (all_yaml : list TiffyYaml) (w : world) :
  slim_file K q s all_yaml w =
  pipeline K (apply_quality q s) all_yaml
    {| images_dict := images_dict w;
       calls := calls w ++ map LogWarning (due_warnings (apply_quality q s)) |}.
Proof.
  unfold slim_file. cbv zeta. unfold bind at 1.
  rewrite warn_quality_run. reflexivity.
Qed.

Lemma slim_file_warnings (K : collaborators) (q : Z) (s : settings)
  (all_yaml : list TiffyYaml) (d : list (key * image)) :
  warnings (calls (fst (slim_file K q s all_yaml (initial d)))) =
  due_warnings (apply_quality q s).
Proof.
  rewrite slim_file_unfold.
  rewrite (pipeline_preserves (fun w => warnings (calls w)) QualityWarning K
             warnings_blind _ _ (or_introl eq_refl)).
  simpl. apply warnings_of_logged.
Qed.

Lemma due_resize_warning (s : settings) :
  In ResizeBelow2 (due_warnings s) <-> (resize_factor s < 2)%Q.
Proof.
  rewrite <- Qltb_lt. unfold due_warnings.
  destruct (Qltb (resize_factor s) 2), (jpeg_compression s <? 80); simpl;
    intuition congruence.
Qed.

Lemma due_jpeg_warning (s : settings) :
  In JpegBelow80 (due_warnings s) <-> jpeg_compression s < 80.
Proof.
  rewrite <- Z.ltb_lt. unfold due_warnings.
  destruct (Qltb (resize_factor s) 2), (jpeg_compression s <? 80); simpl;
    intuition congruence.
Qed.

Lemma due_warnings_once (s : settings) : NoDup (due_warnings s).
Proof.
  unfold due_warnings.
  destruct (Qltb (resize_factor s) 2), (jpeg_compression s <? 80); simpl;
    repeat constructor; simpl; intuition congruence.
Qed.

(** C4: in every run the warning about resizing is logged if and only if
    the effective resize factor is strictly below 2.0, and the warning about
    JPEG artifacts if and only if the effective JPEG quality is strictly
    below 80; none is logged twice.  At exactly 2.0 and 80 (preset 1) no
    warning is logged.  With preset 3 both are logged, once each, and the
    warnings do not end the run: it goes on with the pipeline from the world
    that holds just these two warnings, and on a single record of 500,000
    bytes whose stages succeed it returns. *)
Theorem quality_warnings_at_the_thresholds
  (K : collaborators) (q : Z) (s : settings) (all_yaml : list TiffyYaml)
  (d : list (key * image)) :
  (In ResizeBelow2
      (warnings (calls (fst (slim_file K q s all_yaml (initial d))))) <->
   (resize_factor (apply_quality q s) < 2)%Q) /\
  (In JpegBelow80
      (warnings (calls (fst (slim_file K q s all_yaml (initial d))))) <->
   jpeg_compression (apply_quality q s) < 80) /\
  NoDup (warnings (calls (fst (slim_file K q s all_yaml (initial d))))) /\
  warnings (calls (fst (slim_file K 1 s all_yaml (initial d)))) = [] /\
  warnings (calls (fst (slim_file K 3 s all_yaml (initial d)))) =
    [ResizeBelow2; JpegBelow80] /\
  slim_file K 3 s all_yaml (initial d) =
    pipeline K (apply_quality 3 s) all_yaml
      {| images_dict := d;
         calls := [LogWarning ResizeBelow2; LogWarning JpegBelow80] |} /\
  snd (slim_file Sample.passthrough 3 s [] (initial Sample.one_png)) = inr tt.
Proof.
  rewrite !slim_file_warnings.
  split; [apply due_resize_warning |].
  split; [apply due_jpeg_warning |].
  split; [apply due_warnings_once |].
  split; [reflexivity |].
  split; [reflexivity |].
  split; [rewrite slim_file_unfold; reflexivity |].
  rewrite slim_file_unfold. unfold apply_quality, with_preset.
  destruct (keep_unpacked s); reflexivity.
Qed.

(* ================================================================== *)
(** * The size summaries                                                *)
(* ================================================================== *)

Lemma reduction_raises_iff (before after : Z) :
  reduction before after = inl ZeroDivisionError <-> before = 0.
Proof.
  unfold reduction. destruct (Z.eqb_spec before 0) as [E | E].
  - tauto.
  - split; [discriminate | contradiction].
Qed.

(** C3, on the code: the summary over an empty set of records divides zero
    by zero.  [reduction] raises exactly when the total before is zero; the
    summary over no record raises; and a run on a file without images ends
    with [ZeroDivisionError] at the resize summary (cli.py, line 200),
    whatever the selector and the settings. *)
Theorem empty_index_summary_raises
  (K : collaborators) (q : Z) (s : settings) :
  (forall before after,
      reduction before after = inl ZeroDivisionError <-> before = 0) /\
  (forall r f g w, summarize r f g [] w = (w, inl ZeroDivisionError)) /\
  snd (slim_file K q s [] (initial [])) = inl ZeroDivisionError /\
  ~ In ResizeReport
      (flat_map (fun e => match e with
                          | LogReduction r _ _ _ => [r]
                          | _ => []
                          end)
         (calls (fst (slim_file K q s [] (initial []))))).
Proof.
  split; [apply reduction_raises_iff |].
  split; [reflexivity |].
  rewrite slim_file_unfold. simpl.
  split; [reflexivity |].
  rewrite flat_map_app. simpl. rewrite app_nil_r.
  induction (due_warnings (apply_quality q s)) as [| x l IH]; simpl; tauto.
Qed.

(* ================================================================== *)
(** * The reference scan                                                *)
(* ================================================================== *)

Lemma key_eqb_eq (a b : key) : key_eqb a b = true <-> a = b.
Proof.
  destruct a, b; simpl; try (split; [discriminate | congruence]).
  - tauto.
  - rewrite Z.eqb_eq. split; congruence.
  - rewrite String.eqb_eq. split; congruence.
Qed.

Lemma find_key_from_none (i : nat) (k : key) (d : list (key * image)) :
  find_key_from i k d = None <-> ~ In k (map fst d).
Proof.
  revert i. induction d as [| [k' img] d IH]; intros i; simpl.
  - tauto.
  - destruct (key_eqb k k') eqn:E.
    + apply key_eqb_eq in E. subst. split; [discriminate | tauto].
    + rewrite IH. split.
      * intros H [H' | H']; [| tauto].
        subst. rewrite (proj2 (key_eqb_eq k k) eq_refl) in E. discriminate.
      * tauto.
Qed.

Lemma find_key_none (k : key) (w : world) :
  find_key k (images_dict w) = None <-> ~ In k (keys w).
Proof. apply find_key_from_none. Qed.

Lemma find_key_from_bound (i : nat) (k : key) (d : list (key * image))
  (p : nat) :
  find_key_from i k d = Some p -> (i <= p < i + length d)%nat.
Proof.
  revert i. induction d as [| [k' img] d IH]; intros i; simpl.
  - discriminate.
  - destruct (key_eqb k k').
    + intros H. injection H as <-. lia.
    + intros H. apply IH in H. lia.
Qed.

Lemma attach_run (v : value) (method : image -> image) (w : world)
  (k : key) :
  hash v = inr k ->
  attach v method w =
  (match find_key k (images_dict w) with
   | Some p => change method p w
   | None => w
   end, inr tt).
Proof.
  intros H. unfold attach. rewrite H.
  destruct (find_key k (images_dict w)); reflexivity.
Qed.

Lemma direct_tag_is_not_style (tag : value) :
  eq_str tag "TSD.ImageArchive" = true ->
  eq_str tag "KN.SlideStyleArchive" = false.
Proof.
  destruct tag; simpl; try discriminate.
  intros H. apply String.eqb_eq in H. subst. reflexivity.
Qed.

Lemma style_tag_is_not_direct (tag : value) :
  eq_str tag "KN.SlideStyleArchive" = true ->
  eq_str tag "TSD.ImageArchive" = false.
Proof.
  destruct tag; simpl; try discriminate.
  intros H. apply String.eqb_eq in H. subst. reflexivity.
Qed.

(** On a [TSD.ImageArchive] the body of the loop is the test and the call of
    lines 174-178. *)
Lemma scan_object_direct (f : TiffyYaml) (obj : pyobject) (w : world)
  (tag v : value) :
  getitem obj "_pbtype" = inr tag ->
  eq_str tag "TSD.ImageArchive" = true ->
  direct_identifier obj = inr v ->
  scan_object f obj w = attach v (add_slide_reference f obj) w.
Proof.
  intros Ht Hd Hv. unfold scan_object, bind, lift, when, ret.
  rewrite Ht, Hd, Hv, (direct_tag_is_not_style _ Hd).
  destruct (attach v (add_slide_reference f obj) w) as [w1 [e | []]];
    reflexivity.
Qed.

(** On a [KN.SlideStyleArchive] it is the statement of lines 180-191. *)
Lemma scan_object_style (f : TiffyYaml) (obj : pyobject) (w : world)
  (tag : value) :
  getitem obj "_pbtype" = inr tag ->
  eq_str tag "KN.SlideStyleArchive" = true ->
  scan_object f obj w =
  match style_has_image obj with
  | inl e => (w, inl e)
  | inr false => (w, inr tt)
  | inr true =>
      match style_identifier obj with
      | inl e => (w, inl e)
      | inr v => attach v (add_slide_style_reference f obj) w
      end
  end.
Proof.
  intros Ht Hs. unfold scan_object, bind, lift, when, ret.
  rewrite Ht, Hs, (style_tag_is_not_direct _ Hs).
  destruct (style_has_image obj) as [e | []]; reflexivity.
Qed.

Lemma scan_style_without_image (f : TiffyYaml) (obj : pyobject) (w : world)
  (tag : value) :
  getitem obj "_pbtype" = inr tag ->
  eq_str tag "KN.SlideStyleArchive" = true ->
  style_has_image obj = inr false ->
  scan_object f obj w = (w, inr tt).
Proof.
  intros Ht Hs Hi. rewrite (scan_object_style f obj w tag Ht Hs), Hi.
  reflexivity.
Qed.

Lemma and_then_inr {A B : Type} (r : exn + A) (f : A -> exn + B) (b : B) :
  and_then r f = inr b -> exists a, r = inr a /\ f a = inr b.
Proof.
  destruct r as [e | a]; simpl; [discriminate |].
  intros H. exists a. split; [reflexivity | exact H].
Qed.

(** C6: an object of a recognised type whose resolved identifier is not a
    key of the image index leaves every image record as it is, and the body
    of the loop returns normally: the occurrence is ignored. *)
Theorem dangling_identifier_is_ignored
  (f : TiffyYaml) (obj : pyobject) (w : world) (k : key) :
  resolved_key obj = Some k ->
  ~ In k (keys w) ->
  scan_object f obj w = (w, inr tt).
Proof.
  intros Hk Hnot. apply find_key_none in Hnot.
  unfold resolved_key in Hk.
  destruct (getitem obj "_pbtype") as [e | tag] eqn:Ht; [discriminate |].
  destruct (eq_str tag "TSD.ImageArchive") eqn:Hd.
  - destruct (and_then (direct_identifier obj) hash) as [e | k'] eqn:Hv;
      [discriminate |].
    injection Hk as ->.
    apply and_then_inr in Hv. destruct Hv as (v & Hv & Hh).
    rewrite (scan_object_direct f obj w tag v Ht Hd Hv).
    rewrite (attach_run _ _ _ _ Hh), Hnot. reflexivity.
  - destruct (eq_str tag "KN.SlideStyleArchive") eqn:Hs; [| discriminate].
    destruct (style_has_image obj) as [e | []] eqn:Hi; try discriminate.
    destruct (and_then (style_identifier obj) hash) as [e | k'] eqn:Hv;
      [discriminate |].
    injection Hk as ->.
    apply and_then_inr in Hv. destruct Hv as (v & Hv & Hh).
    rewrite (scan_object_style f obj w tag Ht Hs), Hi, Hv.
    rewrite (attach_run _ _ _ _ Hh), Hnot. reflexivity.
Qed.

(** C7: on a [KN.SlideStyleArchive] whose fill does not contain the image
    (the test of line 180 is false) the scanner evaluates the test, attaches
    nothing and returns normally. *)
Theorem style_without_image_is_no_reference
  (f : TiffyYaml) (obj : pyobject) (w : world) :
  getitem obj "_pbtype" = inr (VStr "KN.SlideStyleArchive") ->
  style_has_image obj = inr false ->
  scan_object f obj w = (w, inr tt).
Proof.
  intros Ht Hi.
  apply (scan_style_without_image f obj w _ Ht eq_refl Hi).
Qed.

Lemma lacks_direct_identifier_default (obj : pyobject) :
  lacks_direct_identifier obj -> direct_identifier obj = inr (VInt 0).
Proof.
  unfold direct_identifier. simpl.
  intros [H | (data & H1 & H2)].
  - rewrite H. reflexivity.
  - rewrite H1. simpl. rewrite H2. reflexivity.
Qed.

Lemma lacks_style_identifier_default (obj : pyobject) :
  lacks_style_identifier obj ->
  style_has_image obj = inr true /\ style_identifier obj = inr (VInt 0).
Proof.
  intros (fill & img & Hf & Hi & H).
  unfold style_has_image, style_identifier. rewrite Hf. simpl. rewrite Hi.
  split; [reflexivity |]. simpl.
  destruct H as [H | (data & H1 & H2)].
  - rewrite H. reflexivity.
  - rewrite H1. simpl. rewrite H2. reflexivity.
Qed.

Lemma lacks_style_image_test (obj : pyobject) :
  lacks_style_image obj -> style_has_image obj = inr false.
Proof.
  unfold style_has_image, style_fill. simpl.
  intros [H | (props & H1 & [H2 | (fill & H2 & H3)])].
  - rewrite H. reflexivity.
  - rewrite H1. simpl. rewrite H2. reflexivity.
  - rewrite H1. simpl. rewrite H2. simpl. rewrite H3. reflexivity.
Qed.

Lemma reference_count_attach (r : reference) (p : nat)
  (d : list (key * image)) :
  (p < length d)%nat ->
  reference_count (alter_image (add_reference r) p d) = S (reference_count d).
Proof.
  revert p. induction d as [| [k img] d IH]; intros p Hp; simpl in Hp.
  - lia.
  - destruct p as [| p]; simpl.
    + rewrite length_app. simpl. lia.
    + rewrite IH by lia. lia.
Qed.

(** The call of line 175-178 or 188-191 with the default identifier: one
    reference more if [0] is a key, none otherwise. *)
Lemma attach_default_count (r : reference) (w : world) :
  snd (attach (VInt 0) (add_reference r) w) = inr tt /\
  reference_count
    (images_dict (fst (attach (VInt 0) (add_reference r) w))) =
  (reference_count (images_dict w) +
   (if has_key (KInt 0) (images_dict w) then 1 else 0))%nat.
Proof.
  rewrite (attach_run (VInt 0) _ w (KInt 0) eq_refl). unfold has_key.
  destruct (find_key (KInt 0) (images_dict w)) as [p |] eqn:E; simpl.
  - split; [reflexivity |].
    apply find_key_from_bound in E.
    rewrite reference_count_attach by lia. lia.
  - split; [reflexivity | lia].
Qed.

(** C10, as the code has it: on an object of a recognised type the missing
    identifier defaults to 0 when the direct object has no [data] or no
    [identifier] in it, and when the fill of the style object has an image
    without [imagedata] or without [identifier] in it; a reference is then
    attached if and only if 0 is a key of the index.  When the style object
    has no [slideProperties], no [fill] or no [image] in the fill, no
    identifier is resolved and nothing is attached, also when 0 is a key. *)
Theorem missing_identifier_defaults_to_zero
  (f : TiffyYaml) (obj : pyobject) (w : world) (tag : value) :
  getitem obj "_pbtype" = inr tag ->
  (eq_str tag "TSD.ImageArchive" = true ->
   lacks_direct_identifier obj ->
   direct_identifier obj = inr (VInt 0) /\
   scan_object f obj w = attach (VInt 0) (add_slide_reference f obj) w /\
   snd (scan_object f obj w) = inr tt /\
   reference_count (images_dict (fst (scan_object f obj w))) =
   (reference_count (images_dict w) +
    (if has_key (KInt 0) (images_dict w) then 1 else 0))%nat) /\
  (eq_str tag "KN.SlideStyleArchive" = true ->
   lacks_style_identifier obj ->
   style_identifier obj = inr (VInt 0) /\
   scan_object f obj w =
     attach (VInt 0) (add_slide_style_reference f obj) w /\
   snd (scan_object f obj w) = inr tt /\
   reference_count (images_dict (fst (scan_object f obj w))) =
   (reference_count (images_dict w) +
    (if has_key (KInt 0) (images_dict w) then 1 else 0))%nat) /\
  (eq_str tag "KN.SlideStyleArchive" = true ->
   lacks_style_image obj ->
   scan_object f obj w = (w, inr tt)).
Proof.
  intros Ht. split; [| split].
  - intros Hd Hl.
    pose proof (lacks_direct_identifier_default obj Hl) as Hv.
    rewrite (scan_object_direct f obj w tag (VInt 0) Ht Hd Hv).
    split; [exact Hv |]. split; [reflexivity |].
    apply attach_default_count.
  - intros Hs Hl.
    destruct (lacks_style_identifier_default obj Hl) as [Hi Hv].
    rewrite (scan_object_style f obj w tag Ht Hs), Hi, Hv.
    split; [reflexivity |]. split; [reflexivity |].
    apply attach_default_count.
  - intros Hs Hl.
    apply (scan_style_without_image f obj w tag Ht Hs).
    apply lacks_style_image_test, Hl.
Qed.

(** ** The order in which references are attached *)

Lemma with_more_references_nil (img : image) :
  with_more_references img [] = img.
Proof.
  destruct img. unfold with_more_references. simpl. rewrite app_nil_r.
  reflexivity.
Qed.

Lemma with_more_references_app (img : image) (a b : list reference) :
  with_more_references (with_more_references img a) b =
  with_more_references img (a ++ b).
Proof. unfold with_more_references. simpl. rewrite app_assoc. reflexivity. Qed.

Lemma nth_error_alter_image (f : image -> image) (d : list (key * image))
  (p q : nat) :
  nth_error (alter_image f p d) q =
  if Nat.eqb q p
  then option_map (fun x => (fst x, f (snd x))) (nth_error d q)
  else nth_error d q.
Proof.
  revert p q. induction d as [| [k img] d IH]; intros p q.
  - destruct q as [| q]; cbn [alter_image nth_error option_map].
    + destruct (Nat.eqb 0 p); reflexivity.
    + destruct (Nat.eqb (S q) p); reflexivity.
  - destruct p as [| p], q as [| q]; simpl; try reflexivity. apply IH.
Qed.

Lemma grows_refl (P : reference -> Prop) (w : world) : grows P w w.
Proof.
  intros p k img H. exists []. rewrite with_more_references_nil.
  split; [exact H | constructor].
Qed.

Lemma grows_trans (P : reference -> Prop) (w1 w2 w3 : world) :
  grows P w1 w2 -> grows P w2 w3 -> grows P w1 w3.
Proof.
  intros H12 H23 p k img H.
  destruct (H12 p k img H) as (a & Ha & Pa).
  destruct (H23 p k _ Ha) as (b & Hb & Pb).
  exists (a ++ b). rewrite <- with_more_references_app.
  split; [exact Hb | apply Forall_app; split; assumption].
Qed.

Lemma grows_change (P : reference -> Prop) (r : reference) (p : nat)
  (w : world) :
  P r -> grows P w (change (add_reference r) p w).
Proof.
  intros Hr q k img H. simpl. rewrite nth_error_alter_image, H.
  destruct (Nat.eqb q p); simpl.
  - exists [r]. split; [reflexivity | repeat constructor; exact Hr].
  - exists []. rewrite with_more_references_nil. split; [reflexivity | constructor].
Qed.

Section Grows.

Variable P : reference -> Prop.

Lemma grows_by_ret {A : Type} (a : A) : grows_by P (ret a).
Proof. intros w w' x H. injection H as <- _. apply grows_refl. Qed.

Lemma grows_by_lift {A : Type} (r : exn + A) : grows_by P (lift r).
Proof. intros w w' x H. injection H as <- _. apply grows_refl. Qed.

Lemma grows_by_bind {A B : Type} (m : M A) (f : A -> M B) :
  grows_by P m -> (forall a, grows_by P (f a)) -> grows_by P (bind m f).
Proof.
  intros Hm Hf w w' b H. apply bind_inr in H.
  destruct H as (w1 & a & H1 & H2).
  apply grows_trans with w1; [apply (Hm _ _ _ H1) | apply (Hf _ _ _ _ H2)].
Qed.

Lemma grows_by_when (b : bool) (m : M unit) :
  grows_by P m -> grows_by P (when b m).
Proof. intros H. destruct b; [exact H | apply grows_by_ret]. Qed.

Lemma grows_by_for_each {A : Type} (f : A -> M unit) (l : list A) :
  (forall x, grows_by P (f x)) -> grows_by P (for_each f l).
Proof.
  intros Hf. induction l as [| x l IH]; simpl.
  - apply grows_by_ret.
  - apply grows_by_bind; [apply Hf | intros _; exact IH].
Qed.

Lemma grows_by_attach (v : value) (r : reference) :
  P r -> grows_by P (attach v (add_reference r)).
Proof.
  intros Hr w w' x. unfold attach.
  destruct (hash v) as [e | k]; [discriminate |].
  destruct (find_key k (images_dict w)) as [p |]; intros H;
    injection H as <-.
  - apply grows_change, Hr.
  - apply grows_refl.
Qed.

End Grows.

(** Scanning one file attaches references to that file only. *)
Lemma scan_file_grows (f : TiffyYaml) :
  grows_by (fun r => ref_file r = yaml_file f) (scan_file f).
Proof.
  unfold scan_file.
  repeat (apply grows_by_for_each; intros ?).
  unfold scan_object.
  repeat first
    [ apply grows_by_lift
    | apply grows_by_attach; reflexivity
    | apply grows_by_when
    | apply grows_by_bind; [| intros ?] ].
Qed.

(** C8, as the code has it: the scan goes through the files in the order of
    the directory listing, without sorting them.  After a scan that returned,
    every image holds its former references followed by the new ones, and the
    new ones come in groups, one group per file, in the order of the
    listing. *)
Theorem scan_attaches_in_listing_order
  (all_yaml : list TiffyYaml) (w w' : world) :
  scan all_yaml w = (w', inr tt) ->
  forall p k img,
    nth_error (images_dict w) p = Some (k, img) ->
    exists groups,
      nth_error (images_dict w') p =
        Some (k, with_more_references img (concat groups)) /\
      Forall2 (fun f g => Forall (fun r => ref_file r = yaml_file f) g)
        all_yaml groups.
Proof.
  revert w. induction all_yaml as [| f fs IH]; intros w Hscan p k img Hp.
  - injection Hscan as <-. exists []. simpl.
    rewrite with_more_references_nil. split; [exact Hp | constructor].
  - unfold scan in Hscan. simpl in Hscan. apply bind_inr in Hscan.
    destruct Hscan as (w1 & [] & H1 & H2).
    destruct (scan_file_grows f _ _ _ H1 p k img Hp) as (new & Hnew & Pnew).
    destruct (IH w1 H2 p k _ Hnew) as (groups & Hg & Fg).
    exists (new :: groups). simpl. rewrite <- with_more_references_app.
    split; [exact Hg | constructor; assumption].
Qed.

(* ================================================================== *)
(** * Stage calls that raise                                            *)
(* ================================================================== *)

Lemma consistent_app (K : collaborators) (t1 t2 : list event)
  (r : option exn) :
  consistent K t1 None -> consistent K t2 r -> consistent K (t1 ++ t2) r.
Proof.
  intros H1 H2. induction t1 as [| c t1 IH]; simpl in *.
  - exact H2.
  - destruct (stage_failure K c).
    + destruct H1 as [_ H1]. discriminate.
    + apply IH, H1.
Qed.

Lemma consistent_split (K : collaborators) (t1 t2 : list event) (c : event)
  (r : option exn) (e : exn) :
  consistent K (t1 ++ c :: t2) r -> stage_failure K c = Some e ->
  t2 = [] /\ r = Some e.
Proof.
  intros H Hc. induction t1 as [| a t1 IH]; simpl in H.
  - rewrite Hc in H. exact H.
  - destruct (stage_failure K a).
    + destruct H as [H _]. destruct t1; discriminate.
    + apply IH, H.
Qed.

Section Sound.

Variable K : collaborators.

Lemma sound_silent {A : Type} (m : M A) :
  (forall w, calls (fst (m w)) = calls w) -> sound K m.
Proof.
  intros H w. exists []. rewrite app_nil_r. split; [apply H | exact I].
Qed.

Lemma sound_ret {A : Type} (a : A) : sound K (ret a).
Proof. apply sound_silent. reflexivity. Qed.

Lemma sound_lift {A : Type} (r : exn + A) : sound K (lift r).
Proof. apply sound_silent. reflexivity. Qed.

Lemma sound_get_images : sound K get_images.
Proof. apply sound_silent. reflexivity. Qed.

Lemma sound_sum_sizes (f : image -> Z) (ps : list nat) :
  sound K (sum_sizes f ps).
Proof. apply sound_silent. reflexivity. Qed.

Lemma sound_scan (all_yaml : list TiffyYaml) : sound K (scan all_yaml).
Proof.
  apply sound_silent.
  apply (preserves_scan calls). intros f p w. reflexivity.
Qed.

Lemma sound_call (e : event) : stage_failure K e = None -> sound K (call e).
Proof.
  intros H w. exists [e]. split; [reflexivity |].
  simpl. rewrite H. exact I.
Qed.

Lemma sound_bind {A B : Type} (m : M A) (f : A -> M B) :
  sound K m -> (forall a, sound K (f a)) -> sound K (bind m f).
Proof.
  intros Hm Hf w. destruct (Hm w) as (t1 & E1 & C1). unfold bind.
  destruct (m w) as [w1 [e | a]]; simpl in *.
  - exists t1. split; assumption.
  - destruct (Hf a w1) as (t2 & E2 & C2). exists (t1 ++ t2).
    rewrite E2, E1, app_assoc.
    split; [reflexivity | apply consistent_app; assumption].
Qed.

Lemma sound_when (b : bool) (m : M unit) : sound K m -> sound K (when b m).
Proof. intros H. destruct b; [exact H | apply sound_ret]. Qed.

Lemma sound_for_each {A : Type} (f : A -> M unit) (l : list A) :
  (forall x, sound K (f x)) -> sound K (for_each f l).
Proof.
  intros Hf. induction l as [| x l IH]; simpl.
  - apply sound_ret.
  - apply sound_bind; [apply Hf | intros _; exact IH].
Qed.

(** A stage call is recorded with the image it is entered with: the record
    tells whether it raised. *)
Lemma sound_invoke (ev : nat -> image -> event) (op : image -> exn + image)
  (p : nat) :
  (forall q img, stage_failure K (ev q img) = error_of (op img)) ->
  sound K (invoke ev op p).
Proof.
  intros Hev w. unfold invoke.
  destruct (nth_error (images_dict w) p) as [[k img] |].
  - exists [ev p img]. specialize (Hev p img).
    destruct (op img) as [e | img']; simpl in *; rewrite Hev.
    + split; [reflexivity | split; reflexivity].
    + split; [reflexivity | exact I].
  - exists []. rewrite app_nil_r. split; [reflexivity | exact I].
Qed.

Lemma sound_summarize (r : report) (f g : image -> Z) (ps : list nat) :
  sound K (summarize r f g ps).
Proof.
  unfold summarize.
  repeat (apply sound_bind; [| intros ?]);
    auto using sound_sum_sizes, sound_lift, sound_call.
Qed.

Ltac sounded :=
  repeat first
    [ apply sound_ret
    | apply sound_lift
    | apply sound_get_images
    | apply sound_sum_sizes
    | apply sound_summarize
    | apply sound_scan
    | apply sound_call; reflexivity
    | apply sound_invoke; intros; reflexivity
    | apply sound_when
    | apply sound_for_each; intros
    | apply sound_bind; [| intros] ].

Lemma sound_slim_file (q : Z) (s : settings) (all_yaml : list TiffyYaml) :
  sound K (slim_file K q s all_yaml).
Proof.
  unfold slim_file, warn_quality, pipeline, convert_tiffs, convert_pngs,
    resize_images, optimize_images, finish.
  cbv zeta. apply sound_bind; [sounded | intros _].
  apply sound_bind; [sounded | intros _].
  apply sound_bind; [sounded | intros d].
  apply sound_bind.
  { destruct (nonempty (select "tif" d)); sounded. }
  intros _. sounded.
Qed.

End Sound.

(** C2, as the code has it: no stage call is guarded.  In every run, a stage
    call (convert, resize or optimize on some record) that raises is the
    last call of the run and its exception is the outcome of [slim_file]:
    no record after it is processed, no later stage runs and no summary is
    logged. *)
Theorem stage_failure_aborts_the_run
  (K : collaborators) (q : Z) (s : settings) (all_yaml : list TiffyYaml)
  (d : list (key * image)) (t1 t2 : list event) (c : event) (e : exn) :
  calls (fst (slim_file K q s all_yaml (initial d))) = t1 ++ c :: t2 ->
  stage_failure K c = Some e ->
  t2 = [] /\ snd (slim_file K q s all_yaml (initial d)) = inl e.
Proof.
  intros Ht Hc.
  destruct (sound_slim_file K q s all_yaml (initial d)) as (t & Et & Ct).
  simpl in Et. rewrite Et in Ht. subst t.
  destruct (consistent_split K _ _ _ _ _ Ct Hc) as [H2 Hr].
  split; [exact H2 |].
  destruct (snd (slim_file K q s all_yaml (initial d))) as [x | []];
    simpl in Hr; congruence.
Qed.

(* ================================================================== *)
(** * The stage calls of a run that returns                             *)
(* ================================================================== *)

Lemma preserves_run {X A : Type} (obs : world -> X) (m : M A)
  (w w' : world) (r : exn + A) :
  preserves obs m -> m w = (w', r) -> obs w' = obs w.
Proof. intros H E. rewrite <- (H w), E. reflexivity. Qed.

Lemma flat_map_singleton {A B : Type} (f : A -> B) (l : list A) :
  flat_map (fun x => [f x]) l = map f l.
Proof. induction l as [| x l IH]; simpl; [| rewrite IH]; reflexivity. Qed.

Lemma positions_in_range (d : list (key * image)) :
  Forall (fun p => (p < length d)%nat) (positions d).
Proof.
  apply Forall_forall. intros p H. apply in_seq in H. lia.
Qed.

(** A loop of stage calls that returns has called the stage on every
    position, in order, and kept the keys. *)
Lemma invoke_loop_calls {B : Type} (f : event -> list B)
  (ev : nat -> image -> event) (op : image -> exn + image) (g : nat -> B) :
  (forall p img, f (ev p img) = [g p]) ->
  forall (ps : list nat) (w w' : world),
    Forall (fun p => (p < length (images_dict w))%nat) ps ->
    for_each (invoke ev op) ps w = (w', inr tt) ->
    flat_map f (calls w') = flat_map f (calls w) ++ map g ps /\
    keys w' = keys w.
Proof.
  intros Hf ps. induction ps as [| p ps IH]; intros w w' Hall H.
  - injection H as <-. rewrite app_nil_r. split; reflexivity.
  - simpl in H. apply bind_inr in H. destruct H as (w1 & [] & H1 & H2).
    inversion Hall as [| ? ? Hp Hps]; subst.
    unfold invoke in H1.
    destruct (nth_error (images_dict w) p) as [[k img] |] eqn:E.
    + destruct (op img) as [e | img']; [discriminate |].
      injection H1 as <-.
      assert (Hk : keys (store p img' (log (ev p img) w)) = keys w)
        by apply alter_image_keys.
      destruct (IH _ _ (eq_ind_r (fun n => Forall (fun p => (p < n)%nat) ps)
                          Hps (keys_length _ _ Hk)) H2) as [Hc Hk'].
      split; [| congruence].
      rewrite Hc. simpl. rewrite flat_map_app. simpl.
      rewrite Hf, app_nil_r, <- app_assoc. reflexivity.
    + apply nth_error_None in E. lia.
Qed.

Section Completed.

Variable K : collaborators.

Lemma resize_images_calls (s : settings) (w w' : world) :
  resize_images K s w = (w', inr tt) ->
  resize_calls (calls w') =
    resize_calls (calls w) ++
    map (fun p => (p, resize_factor s)) (positions (images_dict w)) /\
  keys w' = keys w.
Proof.
  intros H. unfold resize_images in H.
  apply bind_inr in H. destruct H as (w0 & d & H0 & H).
  injection H0 as <- <-.
  apply bind_inr in H. destruct H as (w1 & [] & H1 & H).
  apply bind_inr in H. destruct H as (w2 & d2 & H2 & H).
  injection H2 as <- <-.
  apply (invoke_loop_calls resize_call_of) with
    (g := fun p => (p, resize_factor s)) in H1;
    [| reflexivity | apply positions_in_range].
  destruct H1 as [Hc Hk]. unfold resize_calls. rewrite <- Hc, <- Hk. split.
  - apply (preserves_run _ _ _ _ _
             (summarize_preserves _ Resizing resize_calls_blind _ _ _ _ ltac:(discriminate))
             H).
  - apply (preserves_run _ _ _ _ _
             (summarize_preserves _ Resizing (keys_blind _) _ _ _ _
                ltac:(discriminate))
             H).
Qed.

Lemma optimize_images_calls (s : settings) (w w' : world) :
  optimize_images K s w = (w', inr tt) ->
  optimize_calls (calls w') =
    optimize_calls (calls w) ++
    map (fun p => (p, jpeg_compression s)) (positions (images_dict w)) /\
  keys w' = keys w.
Proof.
  intros H. unfold optimize_images in H.
  apply bind_inr in H. destruct H as (w0 & d & H0 & H).
  injection H0 as <- <-.
  apply bind_inr in H. destruct H as (w1 & [] & H1 & H).
  apply bind_inr in H. destruct H as (w2 & d2 & H2 & H).
  injection H2 as <- <-.
  apply (invoke_loop_calls optimize_call_of) with
    (g := fun p => (p, jpeg_compression s)) in H1;
    [| reflexivity | apply positions_in_range].
  destruct H1 as [Hc Hk]. unfold optimize_calls. rewrite <- Hc, <- Hk. split.
  - apply (preserves_run _ _ _ _ _
             (summarize_preserves _ Optimizing optimize_calls_blind _ _ _ _ ltac:(discriminate))
             H).
  - apply (preserves_run _ _ _ _ _
             (summarize_preserves _ Optimizing (keys_blind _) _ _ _ _
                ltac:(discriminate))
             H).
Qed.

(** A pipeline that returns has called resize on every image with the
    effective factor, then optimize on every image with the effective JPEG
    quality. *)
Lemma pipeline_stage_calls (s : settings) (all_yaml : list TiffyYaml)
  (w w' : world) :
  pipeline K s all_yaml w = (w', inr tt) ->
  resize_calls (calls w') =
    resize_calls (calls w) ++
    map (fun p => (p, resize_factor s)) (positions (images_dict w)) /\
  optimize_calls (calls w') =
    optimize_calls (calls w) ++
    map (fun p => (p, jpeg_compression s)) (positions (images_dict w)).
Proof.
  intros H. unfold pipeline in H.
  apply bind_inr in H. destruct H as (wa & [] & Ha & H).
  apply bind_inr in H. destruct H as (wb & d & Hb & H).
  injection Hb as <- <-. cbv zeta in H.
  apply bind_inr in H. destruct H as (wc & [] & Hc & H).
  apply bind_inr in H. destruct H as (wd & [] & Hd & H).
  apply bind_inr in H. destruct H as (we & [] & He & H).
  apply bind_inr in H. destruct H as (wf & [] & Hf & H).
  apply bind_inr in H. destruct H as (wg & [] & Hg & H).
  assert (Hpre : forall {X : Type} (obs : world -> X) (k : kind),
             blind_except obs k -> k <> TiffConversion ->
             k <> PngConversion -> k <> Other ->
             obs we = obs w).
  { intros X obs k Hblind H1 H2 H3.
    rewrite (preserves_run obs _ _ _ _ (scan_preserves obs k Hblind _) He).
    rewrite (preserves_run obs _ _ _ _
               (convert_pngs_preserves obs k K Hblind _ _ H2 H3) Hd).
    rewrite (preserves_run obs _ _ _ _
               (convert_tiffs_preserves obs k K Hblind _ H1 H3) Hc).
    apply (preserves_run obs _ _ _ _ (unpack_preserves obs k Hblind H3) Ha). }
  destruct (resize_images_calls _ _ _ Hf) as [Rf Kf].
  destruct (optimize_images_calls _ _ _ Hg) as [Og Kg].
  assert (Le : positions (images_dict we) = positions (images_dict w)).
  { unfold positions. f_equal. apply keys_length.
    apply (Hpre _ keys Resizing (keys_blind _)); discriminate. }
  assert (Lf : positions (images_dict wf) = positions (images_dict w)).
  { unfold positions. rewrite (keys_length _ _ Kf). exact Le. }
  split.
  - rewrite (preserves_run (fun w => resize_calls (calls w)) _ _ _ _
               (finish_preserves _ Resizing K resize_calls_blind s
                  ltac:(discriminate)) H).
    rewrite (preserves_run (fun w => resize_calls (calls w)) _ _ _ _
               (optimize_images_preserves _ Resizing K resize_calls_blind s
                  ltac:(discriminate) ltac:(discriminate)) Hg).
    rewrite Rf, Le. f_equal.
    apply (Hpre _ (fun w => resize_calls (calls w)) Resizing
             resize_calls_blind); discriminate.
  - rewrite (preserves_run (fun w => optimize_calls (calls w)) _ _ _ _
               (finish_preserves _ Optimizing K optimize_calls_blind s
                  ltac:(discriminate)) H).
    rewrite Og, Lf. f_equal.
    rewrite (preserves_run (fun w => optimize_calls (calls w)) _ _ _ _
               (resize_images_preserves _ Optimizing K optimize_calls_blind s
                  ltac:(discriminate) ltac:(discriminate)) Hf).
    apply (Hpre _ (fun w => optimize_calls (calls w)) Optimizing
             optimize_calls_blind); discriminate.
Qed.

End Completed.

(** ** What a run that returns leaves in the records *)

(** A loop of stage calls over distinct positions that returns: every image
    at one of the positions is what the stage returned on it, the others
    are as before. *)
Lemma invoke_loop_images (ev : nat -> image -> event)
  (op : image -> exn + image) (ps : list nat) :
  NoDup ps ->
  forall (w w' : world),
    for_each (invoke ev op) ps w = (w', inr tt) ->
    forall p k img,
      nth_error (images_dict w) p = Some (k, img) ->
      (In p ps ->
       exists img', op img = inr img' /\
                    nth_error (images_dict w') p = Some (k, img')) /\
      (~ In p ps -> nth_error (images_dict w') p = Some (k, img)).
Proof.
  induction ps as [| a ps IH]; intros Hnd w w' H p k img Hp.
  - injection H as <-. split; [intros [] | intros _; exact Hp].
  - simpl in H. apply bind_inr in H. destruct H as (w1 & [] & H1 & H2).
    inversion Hnd as [| ? ? Ha Hps]; subst.
    unfold invoke in H1.
    destruct (nth_error (images_dict w) a) as [[ka imga] |] eqn:E.
    + destruct (op imga) as [e | imga'] eqn:Eop; [discriminate |].
      injection H1 as <-.
      assert (Hp1 : nth_error
                      (images_dict (store a imga' (log (ev a imga) w))) p =
                    if Nat.eqb p a then Some (k, imga') else Some (k, img)).
      { simpl. rewrite nth_error_alter_image, Hp. reflexivity. }
      destruct (Nat.eqb_spec p a) as [-> | Hne].
      * assert (Heq : (ka, imga) = (k, img)) by congruence.
        injection Heq as -> ->.
        destruct (IH Hps _ _ H2 a k imga' Hp1) as [_ Hout].
        split; [| intros Hn; exfalso; apply Hn; left; reflexivity].
        intros _. exists imga'. split; [exact Eop | apply Hout, Ha].
      * destruct (IH Hps _ _ H2 p k img Hp1) as [Hin Hout].
        split.
        -- intros [-> | Hin']; [contradiction | apply Hin, Hin'].
        -- intros Hn. apply Hout. intros Hin'. apply Hn. right. exact Hin'.
    + injection H1 as <-.
      assert (Hne : p <> a) by (intros ->; congruence).
      destruct (IH Hps _ _ H2 p k img Hp) as [Hin Hout].
      split.
      * intros [-> | Hin']; [contradiction | apply Hin, Hin'].
      * intros Hn. apply Hout. intros Hin'. apply Hn. right. exact Hin'.
Qed.

Lemma select_from_spec (i : nat) (sub : string) (d : list (key * image))
  (p : nat) :
  In p (select_from i sub d) <->
  (i <= p)%nat /\
  exists k img,
    nth_error d (p - i) = Some (k, img) /\
    contains sub (filename_suffix img) = true.
Proof.
  revert i. induction d as [| [k img] d IH]; intros i; simpl.
  - split; [intros [] |]. intros (_ & k & img & H & _).
    destruct (p - i)%nat; discriminate.
  - assert (Hrest : In p (select_from (S i) sub d) <->
                    (i < p)%nat /\
                    exists k' img',
                      nth_error ((k, img) :: d) (p - i) = Some (k', img') /\
                      contains sub (filename_suffix img') = true).
    { rewrite IH. split.
      - intros (Hle & k' & img' & H & Hc). split; [lia |].
        exists k', img'. replace (p - i)%nat with (S (p - S i)) by lia.
        split; assumption.
      - intros (Hlt & k' & img' & H & Hc). split; [lia |].
        exists k', img'. replace (p - i)%nat with (S (p - S i)) in H by lia.
        split; assumption. }
    destruct (contains sub (filename_suffix img)) eqn:Ec; simpl.
    + rewrite Hrest. split.
      * intros [<- | (Hlt & H)].
        -- split; [lia |]. exists k, img. rewrite Nat.sub_diag.
           split; [reflexivity | exact Ec].
        -- split; [lia | exact H].
      * intros (Hle & H). destruct (Nat.eq_dec i p) as [-> | Hne].
        -- left. reflexivity.
        -- right. split; [lia | exact H].
    + rewrite Hrest. split.
      * intros (Hlt & H). split; [lia | exact H].
      * intros (Hle & k' & img' & H & Hc).
        destruct (Nat.eq_dec i p) as [-> | Hne].
        -- rewrite Nat.sub_diag in H. simpl in H.
           injection H as <- <-. congruence.
        -- split; [lia |]. exists k', img'. split; assumption.
Qed.

Lemma select_from_NoDup (i : nat) (sub : string) (d : list (key * image)) :
  NoDup (select_from i sub d).
Proof.
  revert i. induction d as [| [k img] d IH]; intros i; simpl.
  - constructor.
  - destruct (contains sub (filename_suffix img)); [| apply IH].
    constructor; [| apply IH].
    intros H. apply select_from_spec in H. lia.
Qed.

Lemma select_spec (sub : string) (d : list (key * image)) (p : nat)
  (k : key) (img : image) :
  nth_error d p = Some (k, img) ->
  (In p (select sub d) <-> contains sub (filename_suffix img) = true).
Proof.
  intros Hp. unfold select. rewrite select_from_spec, Nat.sub_0_r. split.
  - intros (_ & k' & img' & H & Hc). congruence.
  - intros Hc. split; [lia |]. exists k, img. split; assumption.
Qed.

Lemma grows_weaken (P Q : reference -> Prop) (w w' : world) :
  (forall r, P r -> Q r) -> grows P w w' -> grows Q w w'.
Proof.
  intros HPQ H p k img Hp. destruct (H p k img Hp) as (new & Hn & Pn).
  exists new. split; [exact Hn |].
  apply Forall_forall. intros r Hr. apply HPQ.
  apply (proj1 (Forall_forall _ _) Pn r Hr).
Qed.

(** A scan only appends references. *)
Lemma scan_grows (all_yaml : list TiffyYaml) :
  grows_by (fun _ => True) (scan all_yaml).
Proof.
  unfold scan. apply grows_by_for_each. intros f w w' a H.
  apply (grows_weaken (fun r => ref_file r = yaml_file f)); [trivial |].
  apply (scan_file_grows f _ _ _ H).
Qed.

Section Records.

Variable K : collaborators.

Lemma summarize_keeps_images (r : report) (f g : image -> Z)
  (ps : list nat) :
  preserves images_dict (summarize r f g ps).
Proof. apply preserves_summarize. intros b a q w. reflexivity. Qed.

Lemma finish_keeps_images (s : settings) :
  preserves images_dict (finish K s).
Proof.
  unfold finish.
  repeat first
    [ apply preserves_lift
    | apply preserves_call; intros w; reflexivity
    | apply preserves_when
    | apply preserves_bind; [| intros ?] ].
Qed.

(** After the TIFF part a TIFF is what [convert()] returned on it, and any
    other image is as before. *)
Lemma convert_tiffs_images (w w' : world) (p : nat) (k : key) (img : image) :
  convert_tiffs K (select "tif" (images_dict w)) w = (w', inr tt) ->
  nth_error (images_dict w) p = Some (k, img) ->
  exists img0,
    (if contains "tif" (filename_suffix img)
     then convert K None img = inr img0
     else img0 = img) /\
    nth_error (images_dict w') p = Some (k, img0).
Proof.
  intros H Hp. unfold convert_tiffs in H.
  pose proof (select_spec "tif" _ p k img Hp) as Hsel.
  destruct (nonempty (select "tif" (images_dict w))) eqn:En.
  - apply bind_inr in H. destruct H as (w1 & [] & H1 & H).
    apply bind_inr in H. destruct H as (w2 & [] & H2 & H).
    injection H as <-. simpl.
    rewrite (preserves_run images_dict _ _ _ _
               (summarize_keeps_images _ _ _ _) H2).
    destruct (invoke_loop_images _ _ _ (select_from_NoDup _ _ _) _ _ H1
                p k img Hp) as [Hin Hout].
    destruct (contains "tif" (filename_suffix img)).
    + destruct (Hin (proj2 Hsel eq_refl)) as (img' & Hop & Hn).
      exists img'. split; assumption.
    + exists img. split; [reflexivity |].
      apply Hout. intros Hc. apply Hsel in Hc. discriminate.
  - injection H as <-. simpl.
    destruct (select "tif" (images_dict w)) as [| x l] eqn:Es;
      [| discriminate].
    destruct (contains "tif" (filename_suffix img)).
    + destruct (proj2 Hsel eq_refl).
    + exists img. split; [reflexivity | exact Hp].
Qed.

Lemma positions_NoDup (d : list (key * image)) : NoDup (positions d).
Proof. apply seq_NoDup. Qed.

Lemma position_in_range (d : list (key * image)) (p : nat) (x : key * image) :
  nth_error d p = Some x -> In p (positions d).
Proof.
  intros H. apply in_seq.
  assert (nth_error d p <> None) by congruence.
  apply nth_error_Some in H0. lia.
Qed.

Lemma resize_images_images (s : settings) (w w' : world) (p : nat) (k : key)
  (img : image) :
  resize_images K s w = (w', inr tt) ->
  nth_error (images_dict w) p = Some (k, img) ->
  exists img',
    resize K (resize_factor s) img = inr img' /\
    nth_error (images_dict w') p = Some (k, img').
Proof.
  intros H Hp. unfold resize_images in H.
  apply bind_inr in H. destruct H as (w0 & d & H0 & H).
  injection H0 as <- <-.
  apply bind_inr in H. destruct H as (w1 & [] & H1 & H).
  apply bind_inr in H. destruct H as (w2 & d2 & H2 & H).
  injection H2 as <- <-.
  rewrite (preserves_run images_dict _ _ _ _
             (summarize_keeps_images _ _ _ _) H).
  apply (invoke_loop_images _ _ _ (positions_NoDup _) _ _ H1 p k img Hp).
  apply (position_in_range _ _ _ Hp).
Qed.

Lemma optimize_images_images (s : settings) (w w' : world) (p : nat)
  (k : key) (img : image) :
  optimize_images K s w = (w', inr tt) ->
  nth_error (images_dict w) p = Some (k, img) ->
  exists img',
    optimize K (jpeg_compression s) img = inr img' /\
    nth_error (images_dict w') p = Some (k, img').
Proof.
  intros H Hp. unfold optimize_images in H.
  apply bind_inr in H. destruct H as (w0 & d & H0 & H).
  injection H0 as <- <-.
  apply bind_inr in H. destruct H as (w1 & [] & H1 & H).
  apply bind_inr in H. destruct H as (w2 & d2 & H2 & H).
  injection H2 as <- <-.
  rewrite (preserves_run images_dict _ _ _ _
             (summarize_keeps_images _ _ _ _) H).
  apply (invoke_loop_images _ _ _ (positions_NoDup _) _ _ H1 p k img Hp).
  apply (position_in_range _ _ _ Hp).
Qed.

(** With PNG conversion off, a pipeline that returns leaves in every record
    what [optimize] returned on what [resize] returned on the record with
    the references of the scan, after [convert()] if it was a TIFF. *)
Lemma pipeline_images (s : settings) (all_yaml : list TiffyYaml)
  (w w' : world) (p : nat) (k : key) (img : image) :
  png_convert s = false ->
  pipeline K s all_yaml w = (w', inr tt) ->
  nth_error (images_dict w) p = Some (k, img) ->
  exists img0 refs img1 img2,
    (if contains "tif" (filename_suffix img)
     then convert K None img = inr img0
     else img0 = img) /\
    resize K (resize_factor s) (with_more_references img0 refs) = inr img1 /\
    optimize K (jpeg_compression s) img1 = inr img2 /\
    nth_error (images_dict w') p = Some (k, img2).
Proof.
  intros Hoff H Hp. unfold pipeline in H.
  apply bind_inr in H. destruct H as (wa & [] & Ha & H).
  injection Ha as <-.
  apply bind_inr in H. destruct H as (wb & d & Hb & H).
  injection Hb as <- <-. cbv zeta in H.
  apply bind_inr in H. destruct H as (wc & [] & Hc & H).
  apply bind_inr in H. destruct H as (wd & [] & Hd & H).
  apply bind_inr in H. destruct H as (we & [] & He & H).
  apply bind_inr in H. destruct H as (wf & [] & Hf & H).
  apply bind_inr in H. destruct H as (wg & [] & Hg & H).
  destruct (convert_tiffs_images _ _ p k img Hc Hp) as (img0 & H0 & Hp0).
  unfold convert_pngs in Hd. rewrite Hoff, andb_false_r in Hd.
  injection Hd as <-.
  destruct (scan_grows all_yaml _ _ _ He p k img0 Hp0) as (refs & Hpe & _).
  destruct (resize_images_images s _ _ p k _ Hf Hpe) as (img1 & H1 & Hpf).
  destruct (optimize_images_images s _ _ p k _ Hg Hpf) as (img2 & H2 & Hpg).
  exists img0, refs, img1, img2.
  rewrite (preserves_run images_dict _ _ _ _ (finish_keeps_images s) H).
  repeat split; assumption.
Qed.

End Records.

(** C1, as the code has it: with selector 0, resize factor 2.0, JPEG
    compression 85 and PNG conversion off, no warning is logged and no PNG is
    converted, but the resize stage and the optimize stage are not skipped:
    a run that returns has called [resize] with factor 2.0 on every image
    and [optimize] with JPEG quality 85 on every image, once each and in the
    order of the dict, and every record ends as what [optimize] returned on
    what [resize] returned on it (after [convert()] if it was a TIFF, and
    with the references of the scan).  The sizes of the records are what
    these calls leave. *)
Theorem default_run_resizes_and_optimizes
  (K : collaborators) (s : settings) (all_yaml : list TiffyYaml)
  (d : list (key * image)) :
  resize_factor s = 2%Q ->
  jpeg_compression s = 85 ->
  png_convert s = false ->
  warnings (calls (fst (slim_file K 0 s all_yaml (initial d)))) = [] /\
  png_conversions (calls (fst (slim_file K 0 s all_yaml (initial d)))) = [] /\
  (snd (slim_file K 0 s all_yaml (initial d)) = inr tt ->
   resize_calls (calls (fst (slim_file K 0 s all_yaml (initial d)))) =
     map (fun p => (p, 2%Q)) (positions d) /\
   optimize_calls (calls (fst (slim_file K 0 s all_yaml (initial d)))) =
     map (fun p => (p, 85)) (positions d) /\
   forall p k img,
     nth_error d p = Some (k, img) ->
     exists img0 refs img1 img2,
       (if contains "tif" (filename_suffix img)
        then convert K None img = inr img0
        else img0 = img) /\
       resize K 2 (with_more_references img0 refs) = inr img1 /\
       optimize K 85 img1 = inr img2 /\
       nth_error
         (images_dict (fst (slim_file K 0 s all_yaml (initial d)))) p =
       Some (k, img2)).
Proof.
  intros Hrf Hjc Hpng.
  assert (Hdue : due_warnings s = []).
  { unfold due_warnings. rewrite Hrf, Hjc. reflexivity. }
  split; [rewrite slim_file_warnings; exact Hdue |].
  rewrite slim_file_unfold. simpl. rewrite Hdue. simpl.
  split.
  - apply (pipeline_preserves (fun w => png_conversions (calls w))
             PngConversion K png_conversions_blind s all_yaml
             (or_intror (conj eq_refl Hpng))).
  - destruct (pipeline K s all_yaml {| images_dict := d; calls := [] |})
      as [w' r] eqn:E.
    simpl. intros ->.
    destruct (pipeline_stage_calls K s all_yaml _ _ E) as [Hr Ho].
    rewrite Hrf in Hr. rewrite Hjc in Ho.
    split; [exact Hr |]. split; [exact Ho |].
    intros p k img Hp.
    pose proof (pipeline_images K s all_yaml _ _ p k img Hpng E Hp) as H.
    rewrite Hrf, Hjc in H. exact H.
Qed.

(* ================================================================== *)
(** * Concrete runs                                                     *)
(* ================================================================== *)

(** Selector 0 and the defaults on a single PNG, with stage methods that
    change nothing: the run returns, and [resize] and [optimize] were both
    called on the record. *)
Lemma default_run_calls_the_stages :
  snd (slim_file Sample.passthrough 0 default_settings []
         (initial Sample.one_png)) = inr tt /\
  resize_calls
    (calls (fst (slim_file Sample.passthrough 0 default_settings []
                   (initial Sample.one_png)))) = [(0%nat, 2%Q)] /\
  optimize_calls
    (calls (fst (slim_file Sample.passthrough 0 default_settings []
                   (initial Sample.one_png)))) = [(0%nat, 85)] /\
  ~ (resize_calls
       (calls (fst (slim_file Sample.passthrough 0 default_settings []
                      (initial Sample.one_png)))) = [] /\
     optimize_calls
       (calls (fst (slim_file Sample.passthrough 0 default_settings []
                      (initial Sample.one_png)))) = []).
Proof.
  repeat split; try reflexivity.
  intros [H _]. vm_compute in H. discriminate.
Qed.

Lemma default_run_on_one_png :
  resize_calls
    (calls (fst (slim_file Sample.passthrough 0 default_settings []
                   (initial Sample.one_png)))) =
    map (fun p => (p, 2%Q)) (positions Sample.one_png) /\
  optimize_calls
    (calls (fst (slim_file Sample.passthrough 0 default_settings []
                   (initial Sample.one_png)))) =
    map (fun p => (p, 85)) (positions Sample.one_png).
Proof.
  destruct (default_run_resizes_and_optimizes Sample.passthrough
              default_settings [] Sample.one_png eq_refl eq_refl eq_refl)
    as (_ & _ & H).
  destruct (H eq_refl) as (Hr & Ho & _).
  split; [exact Hr | exact Ho].
Defined.

(** Two TIFF files, the first of which cannot be decoded: the run ends with
    the exception of the first conversion.  The second file is never
    converted and no summary is logged. *)
Lemma undecodable_tiff_ends_the_run :
  slim_file Sample.undecodable 0 default_settings []
    (initial Sample.two_tiffs) =
  ({| images_dict := Sample.two_tiffs;
      calls := [Unpack; Convert 0 Sample.bad_tiff None] |},
   inl (CollaboratorError "UnsupportedFormatError")).
Proof. reflexivity. Qed.

Lemma undecodable_tiff_run :
  ([] : list event) = [] /\
  snd (slim_file Sample.undecodable 0 default_settings []
         (initial Sample.two_tiffs)) =
  inl (CollaboratorError "UnsupportedFormatError").
Proof.
  apply (stage_failure_aborts_the_run Sample.undecodable 0 default_settings
           [] Sample.two_tiffs [Unpack] [] (Convert 0 Sample.bad_tiff None)).
  - reflexivity.
  - reflexivity.
Defined.

Lemma selector_four_is_selector_zero :
  apply_quality 4 default_settings = default_settings /\
  apply_quality 4 default_settings = apply_quality 0 default_settings /\
  slim_file Sample.passthrough 4 default_settings []
    (initial Sample.one_png) =
  slim_file Sample.passthrough 0 default_settings []
    (initial Sample.one_png).
Proof.
  apply (quality_out_of_range_behaves_as_zero Sample.passthrough 4
           default_settings [] (initial Sample.one_png)).
  right. lia.
Defined.

(** A direct object that names image 99 in an index that holds image 7. *)
Lemma dangling_direct_object :
  scan_object Sample.slide_a (Sample.direct 99) (initial Sample.one_png) =
  (initial Sample.one_png, inr tt).
Proof.
  apply (dangling_identifier_is_ignored Sample.slide_a (Sample.direct 99)
           (initial Sample.one_png) (KInt 99)).
  - reflexivity.
  - simpl. intros [H | []]. discriminate.
Defined.

Lemma style_with_color_fill :
  scan_object Sample.slide_a Sample.style_with_color
    (initial Sample.one_png) =
  (initial Sample.one_png, inr tt).
Proof.
  apply (style_without_image_is_no_reference Sample.slide_a
           Sample.style_with_color (initial Sample.one_png)).
  - reflexivity.
  - reflexivity.
Defined.

(** The files listed as [Slide-b], [Slide-a]: the references of image 7 come
    in that order, which is not the lexicographic one, and listing them the
    other way round gives another result. *)
Lemma scan_follows_the_listing_not_the_names :
  Sample.reference_files
    (fst (scan [Sample.slide_b; Sample.slide_a] (initial Sample.one_png))) 0 =
    ["Slide-b.iwa.yaml"; "Slide-a.iwa.yaml"] /\
  String.ltb "Slide-a.iwa.yaml" "Slide-b.iwa.yaml" = true /\
  Sample.reference_files
    (fst (scan [Sample.slide_a; Sample.slide_b] (initial Sample.one_png))) 0 <>
  Sample.reference_files
    (fst (scan [Sample.slide_b; Sample.slide_a] (initial Sample.one_png))) 0.
Proof.
  split; [reflexivity |]. split; [reflexivity |].
  vm_compute. discriminate.
Qed.

Lemma scan_of_two_slides :
  exists groups,
    nth_error
      (images_dict
         (fst (scan [Sample.slide_b; Sample.slide_a]
                 (initial Sample.one_png)))) 0 =
      Some (KInt 7, with_more_references Sample.png (concat groups)) /\
    Forall2 (fun f g => Forall (fun r => ref_file r = yaml_file f) g)
      [Sample.slide_b; Sample.slide_a] groups.
Proof.
  apply (scan_attaches_in_listing_order [Sample.slide_b; Sample.slide_a]
           (initial Sample.one_png)
           (fst (scan [Sample.slide_b; Sample.slide_a]
                   (initial Sample.one_png)))).
  - reflexivity.
  - reflexivity.
Defined.

(** A style object without [slideProperties] in an index where 0 is a key:
    a link of the path is missing, 0 is a key, and nothing is attached. *)
Lemma missing_style_link_attaches_nothing :
  lookup "slideProperties" Sample.style_without_properties = None /\
  has_key (KInt 0) Sample.png_with_key_zero = true /\
  scan_object Sample.slide_a Sample.style_without_properties
    (initial Sample.png_with_key_zero) =
  (initial Sample.png_with_key_zero, inr tt) /\
  reference_count
    (images_dict
       (fst (scan_object Sample.slide_a Sample.style_without_properties
               (initial Sample.png_with_key_zero)))) = 0%nat.
Proof. repeat split. Qed.

Lemma missing_identifiers_on_samples :
  reference_count
    (images_dict
       (fst (scan_object Sample.slide_a Sample.direct_without_data
               (initial Sample.png_with_key_zero)))) = 1%nat /\
  reference_count
    (images_dict
       (fst (scan_object Sample.slide_a Sample.style_without_imagedata
               (initial Sample.one_png)))) = 0%nat /\
  scan_object Sample.slide_a Sample.style_without_properties
    (initial Sample.png_with_key_zero) =
  (initial Sample.png_with_key_zero, inr tt).
Proof.
  split; [| split].
  - destruct (missing_identifier_defaults_to_zero Sample.slide_a
                Sample.direct_without_data (initial Sample.png_with_key_zero)
                (VStr "TSD.ImageArchive") eq_refl) as (H & _ & _).
    apply H.
    + reflexivity.
    + left. reflexivity.
  - destruct (missing_identifier_defaults_to_zero Sample.slide_a
                Sample.style_without_imagedata (initial Sample.one_png)
                (VStr "KN.SlideStyleArchive") eq_refl) as (_ & H & _).
    apply H.
    + reflexivity.
    + exists [("image", VDict [("technique", VStr "Fit")])],
        [("technique", VStr "Fit")].
      split; [reflexivity |]. split; [reflexivity |]. left. reflexivity.
  - destruct (missing_identifier_defaults_to_zero Sample.slide_a
                Sample.style_without_properties
                (initial Sample.png_with_key_zero)
                (VStr "KN.SlideStyleArchive") eq_refl) as (_ & _ & H).
    apply H.
    + reflexivity.
    + left. reflexivity.
Defined.

(* ================================================================== *)
(** * The order of the presets                                          *)
(* ================================================================== *)

(** X2: the presets are ordered as the levels are: from selector 1 to
    selector 3 neither the resize factor nor the JPEG quality goes up, and
    every preset stays at or below resize factor 2.0 and JPEG quality 80. *)
Theorem presets_are_ordered (q q' : Z) (s s' : settings) :
  1 <= q -> q <= q' -> q' <= 3 ->
  (resize_factor (apply_quality q' s') <= resize_factor (apply_quality q s))%Q /\
  jpeg_compression (apply_quality q' s') <= jpeg_compression (apply_quality q s) /\
  (resize_factor (apply_quality q s) <= 2)%Q /\
  jpeg_compression (apply_quality q s) <= 80.
Proof.
  intros H1 H2 H3.
  assert (Hq : q = 1 \/ q = 2 \/ q = 3) by lia.
  assert (Hq' : q' = 1 \/ q' = 2 \/ q' = 3) by lia.
  destruct Hq as [-> | [-> | ->]]; destruct Hq' as [-> | [-> | ->]];
    try lia; simpl; repeat split; try lia; unfold Qle; simpl; lia.
Qed.

Lemma presets_two_and_three :
  (resize_factor (apply_quality 3 default_settings) <=
   resize_factor (apply_quality 2 default_settings))%Q /\
  jpeg_compression (apply_quality 3 default_settings) <=
  jpeg_compression (apply_quality 2 default_settings) /\
  (resize_factor (apply_quality 2 default_settings) <= 2)%Q /\
  jpeg_compression (apply_quality 2 default_settings) <= 80.
Proof.
  apply (presets_are_ordered 2 3 default_settings default_settings); lia.
Defined.

(* ================================================================== *)
(** * The parts of a run, one after the other                           *)
(* ================================================================== *)

Lemma projection_ignores {B : Type} (f : event -> list B) (e : event) :
  f e = [] -> ignores_event (fun w => flat_map f (calls w)) e.
Proof. intros H w. rewrite projection_log, H. apply app_nil_r. Qed.

Lemma projection_ignores_changes {B : Type} (f : event -> list B) :
  ignores_changes (fun w => flat_map f (calls w)).
Proof. intros g p w. reflexivity. Qed.

Lemma projection_of_warnings {B : Type} (f : event -> list B)
  (l : list quality_warning) :
  (forall x, f (LogWarning x) = []) -> flat_map f (map LogWarning l) = [].
Proof.
  intros H. induction l as [| x l IH]; simpl; [| rewrite H, IH]; reflexivity.
Qed.

Ltac quiet :=
  repeat first
    [ progress unfold convert_tiffs, convert_pngs, resize_images,
        optimize_images, finish
    | match goal with
      | |- preserves _ (if ?b then _ else _) => destruct b
      end
    | apply preserves_ret
    | apply preserves_lift
    | apply preserves_get_images
    | apply preserves_sum_sizes
    | apply preserves_call; apply projection_ignores; reflexivity
    | apply preserves_invoke;
        [ intros; apply projection_ignores; reflexivity
        | apply projection_ignores_changes ]
    | apply preserves_summarize; intros; apply projection_ignores; reflexivity
    | apply preserves_scan; apply projection_ignores_changes
    | apply preserves_when
    | apply preserves_for_each; intros
    | apply preserves_bind; [| intros] ].

(** [quiet_in f H]: the computation of [H] leaves the projection [f] of
    the trace as it is. *)
Ltac quiet_in f H :=
  match type of H with
  | ?m ?w = (?w', _) =>
      let Q := fresh "Q" in
      assert (Q : flat_map f (calls w') = flat_map f (calls w))
        by (refine (preserves_run (fun x => flat_map f (calls x))
                      m w w' _ _ H); quiet);
      rewrite ?Q
  end.

(** A pipeline that returns went through all its parts. *)
Lemma pipeline_returns (K : collaborators) (s : settings)
  (all_yaml : list TiffyYaml) (w w' : world) :
  pipeline K s all_yaml w = (w', inr tt) ->
  exists wc wd we wf wg,
    convert_tiffs K (select "tif" (images_dict w)) (log Unpack w) =
      (wc, inr tt) /\
    convert_pngs K s (select "png" (images_dict w)) wc = (wd, inr tt) /\
    scan all_yaml wd = (we, inr tt) /\
    resize_images K s we = (wf, inr tt) /\
    optimize_images K s wf = (wg, inr tt) /\
    finish K s wg = (w', inr tt).
Proof.
  intros H. unfold pipeline in H.
  apply bind_inr in H. destruct H as (wa & [] & Ha & H).
  injection Ha as <-.
  apply bind_inr in H. destruct H as (wb & d & Hb & H).
  injection Hb as <- <-. cbv zeta in H.
  apply bind_inr in H. destruct H as (wc & [] & Hc & H).
  apply bind_inr in H. destruct H as (wd & [] & Hd & H).
  apply bind_inr in H. destruct H as (we & [] & He & H).
  apply bind_inr in H. destruct H as (wf & [] & Hf & H).
  apply bind_inr in H. destruct H as (wg & [] & Hg & H).
  exists wc, wd, we, wf, wg. repeat split; assumption.
Qed.

Lemma select_in_range (sub : string) (d : list (key * image)) :
  Forall (fun p => (p < length d)%nat) (select sub d).
Proof.
  apply Forall_forall. intros p H. unfold select in H.
  apply select_from_spec in H. destruct H as (_ & k & img & H & _).
  rewrite Nat.sub_0_r in H.
  assert (Hn : nth_error d p <> None) by congruence.
  apply nth_error_Some in Hn. exact Hn.
Qed.

Lemma in_range_keys (ps : list nat) (w w' : world) :
  keys w' = keys w ->
  Forall (fun p => (p < length (images_dict w))%nat) ps ->
  Forall (fun p => (p < length (images_dict w'))%nat) ps.
Proof. intros H. rewrite (keys_length _ _ H). trivial. Qed.

Section Trace.

Variable K : collaborators.

Lemma summarize_report (r : report) (f g : image -> Z) (ps : list nat)
  (w w' : world) :
  summarize r f g ps w = (w', inr tt) ->
  reports (calls w') = reports (calls w) ++ [r] /\
  images_dict w' = images_dict w /\
  fold_right Z.add 0
    (map (fun p => match nth_error (images_dict w) p with
                   | Some (_, img) => f img
                   | None => 0
                   end) ps) <> 0.
Proof.
  unfold summarize, bind, sum_sizes, lift, call. simpl.
  unfold reduction.
  destruct (Z.eqb_spec
              (fold_right Z.add 0
                 (map (fun p => match nth_error (images_dict w) p with
                                | Some (_, img) => f img
                                | None => 0
                                end) ps)) 0) as [E | E];
    [discriminate |].
  intros H. injection H as <-. unfold reports. rewrite projection_log.
  repeat split. exact E.
Qed.

Lemma convert_tiffs_trace (tiffies : list nat) (w w' : world) :
  Forall (fun p => (p < length (images_dict w))%nat) tiffies ->
  convert_tiffs K tiffies w = (w', inr tt) ->
  tiff_conversions (calls w') = tiff_conversions (calls w) ++ tiffies /\
  reports (calls w') =
    reports (calls w) ++ (if nonempty tiffies then [TiffReport] else []) /\
  keys w' = keys w.
Proof.
  intros Hr H. unfold convert_tiffs in H.
  destruct (nonempty tiffies) eqn:En.
  - apply bind_inr in H. destruct H as (w1 & [] & H1 & H).
    apply bind_inr in H. destruct H as (w2 & [] & H2 & H).
    injection H as <-.
    destruct (invoke_loop_calls tiff_conversion_of
                (fun p img => Convert p img None) (convert K None)
                (fun p => p) (fun p img => eq_refl) _ _ _ Hr H1) as [Hc Hk].
    destruct (summarize_report _ _ _ _ _ _ H2) as (Hrep & Himg & _).
    unfold tiff_conversions, reports in *. rewrite !projection_log. simpl.
    rewrite !app_nil_r. repeat split.
    + quiet_in tiff_conversion_of H2. rewrite Hc, map_id. reflexivity.
    + rewrite Hrep. quiet_in report_of H1. reflexivity.
    + unfold keys in *. simpl. rewrite Himg. exact Hk.
  - destruct tiffies; [| discriminate]. injection H as <-.
    unfold tiff_conversions, reports. rewrite !projection_log. simpl.
    rewrite !app_nil_r. repeat split.
Qed.

Lemma convert_pngs_trace (s : settings) (pngs : list nat) (w w' : world) :
  Forall (fun p => (p < length (images_dict w))%nat) pngs ->
  convert_pngs K s pngs w = (w', inr tt) ->
  png_conversions (calls w') =
    png_conversions (calls w) ++
    (if png_convert s
     then map (fun p => (p, jpeg_compression s)) pngs
     else []) /\
  reports (calls w') =
    reports (calls w) ++
    (if nonempty pngs && png_convert s then [PngReport] else []) /\
  tiff_conversions (calls w') = tiff_conversions (calls w) /\
  keys w' = keys w.
Proof.
  intros Hr H. unfold convert_pngs in H.
  destruct (nonempty pngs && png_convert s) eqn:En; simpl in H.
  - apply andb_true_iff in En. destruct En as [_ En]. rewrite En.
    apply bind_inr in H. destruct H as (w1 & [] & H1 & H).
    apply bind_inr in H. destruct H as (w2 & [] & H2 & H).
    injection H as <-.
    destruct (invoke_loop_calls png_conversion_of
                (fun p img => Convert p img (Some (jpeg_compression s)))
                (convert K (Some (jpeg_compression s)))
                (fun p => (p, jpeg_compression s))
                (fun p img => eq_refl) _ _ _ Hr H1) as [Hc Hk].
    destruct (summarize_report _ _ _ _ _ _ H2) as (Hrep & Himg & _).
    unfold png_conversions, tiff_conversions, reports in *.
    rewrite !projection_log. simpl. rewrite !app_nil_r. repeat split.
    + quiet_in png_conversion_of H2. exact Hc.
    + rewrite Hrep. quiet_in report_of H1. reflexivity.
    + quiet_in tiff_conversion_of H2. quiet_in tiff_conversion_of H1.
      reflexivity.
    + unfold keys in *. simpl. rewrite Himg. exact Hk.
  - injection H as <-. rewrite !app_nil_r. repeat split.
    destruct (png_convert s); [| rewrite app_nil_r; reflexivity].
    rewrite andb_true_r in En. destruct pngs; [| discriminate].
    rewrite app_nil_r. reflexivity.
Qed.

Lemma resize_images_reports (s : settings) (w w' : world) :
  resize_images K s w = (w', inr tt) ->
  reports (calls w') = reports (calls w) ++ [ResizeReport] /\
  images_dict w <> [].
Proof.
  intros H. unfold resize_images in H.
  apply bind_inr in H. destruct H as (w0 & d & H0 & H).
  injection H0 as <- <-.
  apply bind_inr in H. destruct H as (w1 & [] & H1 & H).
  apply bind_inr in H. destruct H as (w2 & d2 & H2 & H).
  injection H2 as <- <-.
  destruct (summarize_report _ _ _ _ _ _ H) as (Hrep & _ & Hsum).
  split.
  - unfold reports in *. rewrite Hrep. quiet_in report_of H1. reflexivity.
  - intros E.
    destruct (invoke_loop_calls resize_call_of
                (fun p img => Resize p img (resize_factor s))
                (resize K (resize_factor s))
                (fun p => (p, resize_factor s)) (fun p img => eq_refl)
                _ _ _ (positions_in_range _) H1) as [_ Hk].
    apply keys_length in Hk. rewrite E in Hk. simpl in Hk.
    apply Hsum. unfold positions. rewrite Hk. reflexivity.
Qed.

Lemma optimize_images_reports (s : settings) (w w' : world) :
  optimize_images K s w = (w', inr tt) ->
  reports (calls w') = reports (calls w) ++ [OptimizeReport].
Proof.
  intros H. unfold optimize_images in H.
  apply bind_inr in H. destruct H as (w0 & d & H0 & H).
  injection H0 as <- <-.
  apply bind_inr in H. destruct H as (w1 & [] & H1 & H).
  apply bind_inr in H. destruct H as (w2 & d2 & H2 & H).
  injection H2 as <- <-.
  destruct (summarize_report _ _ _ _ _ _ H) as (Hrep & _ & _).
  unfold reports in *. rewrite Hrep. quiet_in report_of H1. reflexivity.
Qed.

(** What [finish] leaves in the trace when it returns. *)
Lemma finish_trace (s : settings) (w w' : world) :
  finish K s w = (w', inr tt) ->
  keynote_size K <> 0 /\
  reports (calls w') = reports (calls w) ++ [FileReport] /\
  repacks (calls w') = repacks (calls w) ++ [Repack] /\
  cleanup (calls w') =
    cleanup (calls w) ++
    (if keep_unpacked s then [] else [RemoveUnpacked]) ++
    (if export_pdf s
     then ExportPdf (pdf_suffix s) (pdf_all_stages s) ::
          (if applescript_code K =? 0 then [RemoveRepacked] else [])
     else []).
Proof.
  unfold finish, bind, lift, call, when, ret, reduction.
  destruct (Z.eqb_spec (keynote_size K) 0) as [E | E]; [discriminate |].
  unfold reports, repacks, cleanup.
  destruct (keep_unpacked s), (export_pdf s), (applescript_code K =? 0);
    simpl; intros H; injection H as <-; simpl;
    rewrite ?flat_map_app; simpl; rewrite ?app_nil_r, <- ?app_assoc;
    repeat split; assumption || reflexivity.
Qed.

(** [finish] raises at the division only, before any clean-up. *)
Lemma finish_raises (s : settings) (w w' : world) (e : exn) :
  finish K s w = (w', inl e) ->
  keynote_size K = 0 /\ e = ZeroDivisionError /\ w' = log Repack w.
Proof.
  unfold finish, bind, lift, call, when, ret, reduction.
  destruct (Z.eqb_spec (keynote_size K) 0) as [E | E].
  - intros H. injection H as <- <-. repeat split. exact E.
  - destruct (keep_unpacked s), (export_pdf s), (applescript_code K =? 0);
      discriminate.
Qed.

End Trace.

Section Runs.

Variable K : collaborators.

(** What a pipeline that returns has appended to the trace, by kind. *)
Lemma pipeline_trace (s : settings) (all_yaml : list TiffyYaml)
  (w w' : world) :
  pipeline K s all_yaml w = (w', inr tt) ->
  tiff_conversions (calls w') =
    tiff_conversions (calls w) ++ select "tif" (images_dict w) /\
  png_conversions (calls w') =
    png_conversions (calls w) ++
    (if png_convert s
     then map (fun p => (p, jpeg_compression s))
            (select "png" (images_dict w))
     else []) /\
  reports (calls w') =
    reports (calls w) ++
    (if nonempty (select "tif" (images_dict w)) then [TiffReport] else []) ++
    (if nonempty (select "png" (images_dict w)) && png_convert s
     then [PngReport] else []) ++
    [ResizeReport; OptimizeReport; FileReport] /\
  cleanup (calls w') =
    cleanup (calls w) ++
    (if keep_unpacked s then [] else [RemoveUnpacked]) ++
    (if export_pdf s
     then ExportPdf (pdf_suffix s) (pdf_all_stages s) ::
          (if applescript_code K =? 0 then [RemoveRepacked] else [])
     else []) /\
  repacks (calls w') = repacks (calls w) ++ [Repack] /\
  images_dict w <> [] /\
  keynote_size K <> 0.
Proof.
  intros H. apply pipeline_returns in H.
  destruct H as (wc & wd & we & wf & wg & Hc & Hd & He & Hf & Hg & Hh).
  destruct (convert_tiffs_trace K _ _ _ (select_in_range "tif" _) Hc)
    as (Tc & Rc & Kc).
  destruct (convert_pngs_trace K s _ _ _
              (in_range_keys _ (log Unpack w) wc Kc
                 (select_in_range "png" _)) Hd)
    as (Pd & Rd & Td & Kd).
  destruct (resize_images_reports K _ _ _ Hf) as (Rf & Ne).
  pose proof (optimize_images_reports K _ _ _ Hg) as Rg.
  destruct (finish_trace K _ _ _ Hh) as (Hsize & Rh & Ph & Ch).
  unfold tiff_conversions, png_conversions, reports, cleanup, repacks in *.
  rewrite !projection_log in *. simpl in *. rewrite !app_nil_r in *.
  repeat split.
  - quiet_in tiff_conversion_of Hh. quiet_in tiff_conversion_of Hg.
    quiet_in tiff_conversion_of Hf. quiet_in tiff_conversion_of He.
    rewrite Td. exact Tc.
  - quiet_in png_conversion_of Hh. quiet_in png_conversion_of Hg.
    quiet_in png_conversion_of Hf. quiet_in png_conversion_of He.
    rewrite Pd. quiet_in png_conversion_of Hc.
    rewrite projection_log. simpl. rewrite app_nil_r. reflexivity.
  - rewrite Rh, Rg, Rf. quiet_in report_of He. rewrite Rd, Rc.
    rewrite <- !app_assoc. reflexivity.
  - rewrite Ch. quiet_in cleanup_of Hg. quiet_in cleanup_of Hf.
    quiet_in cleanup_of He. quiet_in cleanup_of Hd. quiet_in cleanup_of Hc.
    rewrite projection_log. simpl. rewrite app_nil_r. reflexivity.
  - rewrite Ph. quiet_in repack_of Hg. quiet_in repack_of Hf.
    quiet_in repack_of He. quiet_in repack_of Hd. quiet_in repack_of Hc.
    rewrite projection_log. simpl. rewrite app_nil_r. reflexivity.
  - intros E.
    assert (Hk : keys we = keys w).
    { rewrite (preserves_run keys _ _ _ _
                 (preserves_scan keys _ (proj1 (keys_blind Other))) He).
      rewrite Kd, Kc. reflexivity. }
    apply keys_length in Hk. rewrite E in Hk.
    apply Ne. destruct (images_dict we); [reflexivity | discriminate].
  - exact Hsize.
Qed.

End Runs.

(** X3: for every selector and every setting, a run that returns has called
    [resize] on every image with the effective resize factor and [optimize]
    on every image with the effective JPEG quality, once each and in the
    order of the dict. *)
Theorem completed_run_calls_every_stage
  (K : collaborators) (q : Z) (s : settings) (all_yaml : list TiffyYaml)
  (d : list (key * image)) :
  snd (slim_file K q s all_yaml (initial d)) = inr tt ->
  resize_calls (calls (fst (slim_file K q s all_yaml (initial d)))) =
    map (fun p => (p, resize_factor (apply_quality q s))) (positions d) /\
  optimize_calls (calls (fst (slim_file K q s all_yaml (initial d)))) =
    map (fun p => (p, jpeg_compression (apply_quality q s))) (positions d).
Proof.
  rewrite slim_file_unfold. simpl.
  destruct (pipeline K (apply_quality q s) all_yaml _) as [w' r] eqn:E.
  simpl. intros ->.
  destruct (pipeline_stage_calls K _ _ _ _ E) as [Hr Ho]. simpl in *.
  unfold resize_calls, optimize_calls in *.
  rewrite projection_of_warnings in Hr by reflexivity.
  rewrite projection_of_warnings in Ho by reflexivity.
  split; assumption.
Qed.

Lemma preset_two_calls_every_stage :
  resize_calls
    (calls (fst (slim_file Sample.passthrough 2 default_settings []
                   (initial Cases.tiff_and_png)))) =
    map (fun p => (p, resize_factor (apply_quality 2 default_settings)))
      (positions Cases.tiff_and_png) /\
  optimize_calls
    (calls (fst (slim_file Sample.passthrough 2 default_settings []
                   (initial Cases.tiff_and_png)))) =
    map (fun p => (p, jpeg_compression (apply_quality 2 default_settings)))
      (positions Cases.tiff_and_png).
Proof.
  apply (completed_run_calls_every_stage Sample.passthrough 2
           default_settings [] Cases.tiff_and_png).
  reflexivity.
Defined.

(** X4: a run that returns has called [convert()] on exactly the images
    whose suffix contains "tif", whatever the selector and the settings, and
    has called [convert(jpeg_compression=...)] on exactly the images whose
    suffix contains "png" when PNG conversion is in effect and on none
    otherwise; both in the order of the dict. *)
Theorem completed_run_conversions
  (K : collaborators) (q : Z) (s : settings) (all_yaml : list TiffyYaml)
  (d : list (key * image)) :
  snd (slim_file K q s all_yaml (initial d)) = inr tt ->
  tiff_conversions (calls (fst (slim_file K q s all_yaml (initial d)))) =
    select "tif" d /\
  png_conversions (calls (fst (slim_file K q s all_yaml (initial d)))) =
    (if png_convert (apply_quality q s)
     then map (fun p => (p, jpeg_compression (apply_quality q s)))
            (select "png" d)
     else []).
Proof.
  rewrite slim_file_unfold. simpl.
  destruct (pipeline K (apply_quality q s) all_yaml _) as [w' r] eqn:E.
  simpl. intros ->.
  destruct (pipeline_trace K _ _ _ _ E) as (Ht & Hp & _). simpl in *.
  unfold tiff_conversions, png_conversions in *.
  rewrite projection_of_warnings in Ht by reflexivity.
  rewrite projection_of_warnings in Hp by reflexivity.
  split; assumption.
Qed.

Lemma conversions_of_a_tiff_and_a_png :
  tiff_conversions
    (calls (fst (slim_file Sample.passthrough 1 default_settings []
                   (initial Cases.tiff_and_png)))) =
    select "tif" Cases.tiff_and_png /\
  png_conversions
    (calls (fst (slim_file Sample.passthrough 1 default_settings []
                   (initial Cases.tiff_and_png)))) =
    (if png_convert (apply_quality 1 default_settings)
     then map (fun p => (p, jpeg_compression (apply_quality 1 default_settings)))
            (select "png" Cases.tiff_and_png)
     else []).
Proof.
  apply (completed_run_conversions Sample.passthrough 1 default_settings []
           Cases.tiff_and_png).
  reflexivity.
Defined.

(** X5: a run returns only on a file with at least one image and a
    non-empty original file, and it has then logged its summaries in this
    order: the TIFF summary if there is a TIFF, the PNG summary if there is
    a PNG and PNG conversion is in effect, then the resize, the optimize and
    the file summary, each once. *)
Theorem completed_run_reports
  (K : collaborators) (q : Z) (s : settings) (all_yaml : list TiffyYaml)
  (d : list (key * image)) :
  snd (slim_file K q s all_yaml (initial d)) = inr tt ->
  d <> [] /\
  keynote_size K <> 0 /\
  reports (calls (fst (slim_file K q s all_yaml (initial d)))) =
    (if nonempty (select "tif" d) then [TiffReport] else []) ++
    (if nonempty (select "png" d) && png_convert (apply_quality q s)
     then [PngReport] else []) ++
    [ResizeReport; OptimizeReport; FileReport].
Proof.
  rewrite slim_file_unfold. simpl.
  destruct (pipeline K (apply_quality q s) all_yaml _) as [w' r] eqn:E.
  simpl. intros ->.
  destruct (pipeline_trace K _ _ _ _ E) as (_ & _ & Hr & _ & _ & Hd & Hk).
  simpl in *. unfold reports in *.
  rewrite projection_of_warnings in Hr by reflexivity.
  repeat split; assumption.
Qed.

Lemma reports_of_a_tiff_and_a_png :
  Cases.tiff_and_png <> [] /\
  keynote_size Sample.passthrough <> 0 /\
  reports
    (calls (fst (slim_file Sample.passthrough 1 default_settings []
                   (initial Cases.tiff_and_png)))) =
    (if nonempty (select "tif" Cases.tiff_and_png) then [TiffReport] else []) ++
    (if nonempty (select "png" Cases.tiff_and_png) &&
        png_convert (apply_quality 1 default_settings)
     then [PngReport] else []) ++
    [ResizeReport; OptimizeReport; FileReport].
Proof.
  apply (completed_run_reports Sample.passthrough 1 default_settings []
           Cases.tiff_and_png).
  reflexivity.
Defined.

(** X6: after the summaries a run that returns has repacked once; it has
    removed the unpacked directory unless [keep_unpacked] is set, then
    exported the PDF if the export is in effect (always with a selector from
    1 to 3), and deleted the repacked file only after an export for which
    AppleScript returned 0. *)
Theorem completed_run_cleanup
  (K : collaborators) (q : Z) (s : settings) (all_yaml : list TiffyYaml)
  (d : list (key * image)) :
  snd (slim_file K q s all_yaml (initial d)) = inr tt ->
  repacks (calls (fst (slim_file K q s all_yaml (initial d)))) = [Repack] /\
  cleanup (calls (fst (slim_file K q s all_yaml (initial d)))) =
    (if keep_unpacked s then [] else [RemoveUnpacked]) ++
    (if export_pdf (apply_quality q s)
     then ExportPdf (pdf_suffix s) (pdf_all_stages s) ::
          (if applescript_code K =? 0 then [RemoveRepacked] else [])
     else []) /\
  (1 <= q <= 3 -> export_pdf (apply_quality q s) = true).
Proof.
  rewrite slim_file_unfold. simpl.
  destruct (pipeline K (apply_quality q s) all_yaml _) as [w' r] eqn:E.
  simpl. intros ->.
  destruct (pipeline_trace K _ _ _ _ E) as (_ & _ & _ & Hc & Hp & _).
  simpl in *. unfold cleanup, repacks in *.
  rewrite projection_of_warnings in Hc by reflexivity.
  rewrite projection_of_warnings in Hp by reflexivity.
  assert (Hu : untouched (apply_quality q s) = untouched s).
  { unfold apply_quality. destruct q as [|[[p|p|]|[p|p|]|]|p]; reflexivity. }
  unfold untouched in Hu. injection Hu as Ha Hb Hc'.
  rewrite Ha, Hb, Hc' in Hc.
  split; [exact Hp |]. split; [exact Hc |].
  intros Hq. assert (Hq' : q = 1 \/ q = 2 \/ q = 3) by lia.
  destruct Hq' as [-> | [-> | ->]]; reflexivity.
Qed.

Lemma cleanup_of_a_default_run :
  repacks
    (calls (fst (slim_file Sample.passthrough 0 default_settings []
                   (initial Sample.one_png)))) = [Repack] /\
  cleanup
    (calls (fst (slim_file Sample.passthrough 0 default_settings []
                   (initial Sample.one_png)))) =
    (if keep_unpacked default_settings then [] else [RemoveUnpacked]) ++
    (if export_pdf (apply_quality 0 default_settings)
     then ExportPdf (pdf_suffix default_settings)
            (pdf_all_stages default_settings) ::
          (if applescript_code Sample.passthrough =? 0
           then [RemoveRepacked] else [])
     else []) /\
  (1 <= 0 <= 3 -> export_pdf (apply_quality 0 default_settings) = true).
Proof.
  apply (completed_run_cleanup Sample.passthrough 0 default_settings []
           Sample.one_png).
  reflexivity.
Defined.

(* ================================================================== *)
(** * The records after a run, for every setting                        *)
(* ================================================================== *)

Section Lineage.

Variable K : collaborators.

(** After the PNG part: a PNG of the file as it was opened is what
    [convert(jpeg_compression=...)] returned on it, if PNG conversion is in
    effect; any other image is as before. *)
Lemma convert_pngs_images (s : settings) (d0 : list (key * image))
  (w w' : world) (p : nat) (k : key) (img img_t : image) :
  convert_pngs K s (select "png" d0) w = (w', inr tt) ->
  nth_error d0 p = Some (k, img) ->
  nth_error (images_dict w) p = Some (k, img_t) ->
  exists img_p,
    (if png_convert s && contains "png" (filename_suffix img)
     then convert K (Some (jpeg_compression s)) img_t = inr img_p
     else img_p = img_t) /\
    nth_error (images_dict w') p = Some (k, img_p).
Proof.
  intros H Hp0 Hp. unfold convert_pngs in H.
  pose proof (select_spec "png" d0 p k img Hp0) as Hsel.
  destruct (nonempty (select "png" d0) && png_convert s) eqn:En; simpl in H.
  - apply andb_true_iff in En. destruct En as [_ En]. rewrite En. simpl.
    apply bind_inr in H. destruct H as (w1 & [] & H1 & H).
    apply bind_inr in H. destruct H as (w2 & [] & H2 & H).
    injection H as <-. simpl.
    rewrite (preserves_run images_dict _ _ _ _
               (summarize_keeps_images _ _ _ _) H2).
    destruct (invoke_loop_images _ _ _ (select_from_NoDup _ _ _) _ _ H1
                p k img_t Hp) as [Hin Hout].
    destruct (contains "png" (filename_suffix img)).
    + destruct (Hin (proj2 Hsel eq_refl)) as (img' & Hop & Hn).
      exists img'. split; assumption.
    + exists img_t. split; [reflexivity |].
      apply Hout. intros Hc. apply Hsel in Hc. discriminate.
  - injection H as <-. exists img_t. split; [| exact Hp].
    destruct (png_convert s); [| reflexivity]. simpl.
    rewrite andb_true_r in En.
    destruct (contains "png" (filename_suffix img)); [| reflexivity].
    destruct (select "png" d0); [| discriminate].
    destruct (proj2 Hsel eq_refl).
Qed.

End Lineage.

(* ================================================================== *)
(** * The order of the stages                                           *)
(* ================================================================== *)

Lemma sorted_app (l1 l2 : list nat) :
  StronglySorted le l1 -> StronglySorted le l2 ->
  (forall x y, In x l1 -> In y l2 -> (x <= y)%nat) ->
  StronglySorted le (l1 ++ l2).
Proof.
  intros H1 H2 H. induction l1 as [| a l1 IH]; simpl.
  - exact H2.
  - apply StronglySorted_inv in H1. destruct H1 as [H1 Ha].
    constructor.
    + apply IH; [exact H1 |]. intros x y Hx Hy. apply H; [right |]; assumption.
    + apply Forall_app. split; [exact Ha |].
      apply Forall_forall. intros y Hy. apply H; [left; reflexivity | exact Hy].
Qed.

Section Ordered.

Lemma ordered_silent {A : Type} (lo hi : nat) (m : M A) :
  preserves calls m -> ordered lo hi m.
Proof.
  intros H w. exists []. rewrite app_nil_r.
  split; [apply H |]. split; constructor.
Qed.

Lemma ordered_call (lo hi : nat) (e : event) :
  stage_rank e = [] -> ordered lo hi (call e).
Proof.
  intros H w. exists [e]. split; [reflexivity |].
  unfold stage_ranks. simpl. rewrite H. split; constructor.
Qed.

Lemma ordered_weaken {A : Type} (lo hi lo' hi' : nat) (m : M A) :
  (lo' <= lo)%nat -> (hi <= hi')%nat -> ordered lo hi m -> ordered lo' hi' m.
Proof.
  intros Hlo Hhi H w. destruct (H w) as (t & Et & St & Bt).
  exists t. split; [exact Et |]. split; [exact St |].
  apply Forall_forall. intros r Hr.
  pose proof (proj1 (Forall_forall _ _) Bt r Hr) as Hb. simpl in Hb. lia.
Qed.

Lemma ordered_bind {A B : Type} (lo mid hi : nat) (m : M A) (f : A -> M B) :
  (lo <= mid)%nat -> (mid <= hi)%nat ->
  ordered lo mid m -> (forall a, ordered mid hi (f a)) ->
  ordered lo hi (bind m f).
Proof.
  intros Hlo Hhi Hm Hf w. destruct (Hm w) as (t1 & E1 & S1 & B1).
  unfold bind. destruct (m w) as [w1 [e | a]]; simpl in *.
  - exists t1. split; [exact E1 |]. split; [exact S1 |].
    apply Forall_forall. intros r Hr.
    pose proof (proj1 (Forall_forall _ _) B1 r Hr) as Hb. simpl in Hb. lia.
  - destruct (Hf a w1) as (t2 & E2 & S2 & B2). exists (t1 ++ t2).
    rewrite E2, E1, app_assoc. split; [reflexivity |].
    unfold stage_ranks in *. rewrite flat_map_app. split.
    + apply sorted_app; [exact S1 | exact S2 |].
      intros x y Hx Hy.
      pose proof (proj1 (Forall_forall _ _) B1 x Hx) as Hb1.
      pose proof (proj1 (Forall_forall _ _) B2 y Hy) as Hb2.
      simpl in Hb1, Hb2. lia.
    + apply Forall_app. split; apply Forall_forall; intros r Hr.
      * pose proof (proj1 (Forall_forall _ _) B1 r Hr) as Hb.
        simpl in Hb. lia.
      * pose proof (proj1 (Forall_forall _ _) B2 r Hr) as Hb.
        simpl in Hb. lia.
Qed.

(** A part that calls one stage only. *)
Lemma ordered_same {A B : Type} (r : nat) (m : M A) (f : A -> M B) :
  ordered r r m -> (forall a, ordered r r (f a)) -> ordered r r (bind m f).
Proof. apply ordered_bind; lia. Qed.

Lemma ordered_when (lo hi : nat) (b : bool) (m : M unit) :
  ordered lo hi m -> ordered lo hi (when b m).
Proof.
  intros H. destruct b; [exact H |].
  apply ordered_silent. intros w. reflexivity.
Qed.

Lemma ordered_for_each {A : Type} (r : nat) (f : A -> M unit) (l : list A) :
  (forall x, ordered r r (f x)) -> ordered r r (for_each f l).
Proof.
  intros Hf. induction l as [| x l IH]; simpl.
  - apply ordered_silent. intros w. reflexivity.
  - apply ordered_same; [apply Hf | intros _; exact IH].
Qed.

Lemma ordered_invoke (r : nat) (ev : nat -> image -> event)
  (op : image -> exn + image) (p : nat) :
  (forall q img, stage_rank (ev q img) = [r]) ->
  ordered r r (invoke ev op p).
Proof.
  intros Hev w. unfold invoke.
  destruct (nth_error (images_dict w) p) as [[k img] |].
  - exists [ev p img].
    assert (Hr : stage_ranks [ev p img] = [r]).
    { unfold stage_ranks. simpl. rewrite Hev. reflexivity. }
    rewrite Hr.
    split; [destruct (op img); reflexivity |].
    split; repeat constructor.
  - exists []. rewrite app_nil_r. split; [reflexivity |]. split; constructor.
Qed.

Lemma ordered_summarize (lo hi : nat) (r : report) (f g : image -> Z)
  (ps : list nat) :
  (lo <= hi)%nat -> ordered lo hi (summarize r f g ps).
Proof.
  intros H. unfold summarize.
  apply (ordered_bind lo lo hi); [lia | exact H | |];
    [apply ordered_silent; intros w; reflexivity | intros b].
  apply (ordered_bind lo lo hi); [lia | exact H | |];
    [apply ordered_silent; intros w; reflexivity | intros a].
  apply (ordered_bind lo lo hi); [lia | exact H | |];
    [apply ordered_silent; intros w; reflexivity | intros pc].
  apply ordered_call. reflexivity.
Qed.

Variable K : collaborators.

Lemma ordered_convert_tiffs (tiffies : list nat) :
  ordered 0 0 (convert_tiffs K tiffies).
Proof.
  unfold convert_tiffs. destruct (nonempty tiffies).
  - apply ordered_same;
      [apply ordered_for_each; intros p; apply ordered_invoke; reflexivity |].
    intros _. apply ordered_same; [apply ordered_summarize; lia |].
    intros _. apply ordered_call. reflexivity.
  - apply ordered_call. reflexivity.
Qed.

Lemma ordered_convert_pngs (s : settings) (pngs : list nat) :
  ordered 1 1 (convert_pngs K s pngs).
Proof.
  unfold convert_pngs. apply ordered_when.
  apply ordered_same;
    [apply ordered_for_each; intros p; apply ordered_invoke; reflexivity |].
  intros _. apply ordered_same; [apply ordered_summarize; lia |].
  intros _. apply ordered_call. reflexivity.
Qed.

Lemma ordered_resize_images (s : settings) :
  ordered 2 2 (resize_images K s).
Proof.
  unfold resize_images.
  apply ordered_same; [apply ordered_silent; intros w; reflexivity |].
  intros d. apply ordered_same;
    [apply ordered_for_each; intros p; apply ordered_invoke; reflexivity |].
  intros _.
  apply ordered_same; [apply ordered_silent; intros w; reflexivity |].
  intros d'. apply ordered_summarize. lia.
Qed.

Lemma ordered_optimize_images (s : settings) :
  ordered 3 3 (optimize_images K s).
Proof.
  unfold optimize_images.
  apply ordered_same; [apply ordered_silent; intros w; reflexivity |].
  intros d. apply ordered_same;
    [apply ordered_for_each; intros p; apply ordered_invoke; reflexivity |].
  intros _.
  apply ordered_same; [apply ordered_silent; intros w; reflexivity |].
  intros d'. apply ordered_summarize. lia.
Qed.

Lemma ordered_finish (s : settings) : ordered 3 3 (finish K s).
Proof.
  unfold finish.
  repeat first
    [ apply ordered_call; reflexivity
    | apply ordered_silent; intros w; reflexivity
    | apply ordered_when
    | apply ordered_same; [| intros ?] ].
Qed.

Lemma ordered_slim_file (q : Z) (s : settings) (all_yaml : list TiffyYaml) :
  ordered 0 3 (slim_file K q s all_yaml).
Proof.
  unfold slim_file. cbv zeta.
  apply (ordered_bind 0 0 3); [lia | lia | |].
  { unfold warn_quality.
    apply ordered_same; apply ordered_when || intros _;
      try apply ordered_when; apply ordered_call; reflexivity. }
  intros _. unfold pipeline.
  apply (ordered_bind 0 0 3); [lia | lia | apply ordered_call; reflexivity |].
  intros _.
  apply (ordered_bind 0 0 3);
    [lia | lia | apply ordered_silent; intros w; reflexivity |].
  intros d. cbv zeta.
  apply (ordered_bind 0 0 3); [lia | lia | apply ordered_convert_tiffs |].
  intros _.
  apply (ordered_bind 0 1 3); [lia | lia | |].
  { apply (ordered_weaken 1 1); [lia | lia | apply ordered_convert_pngs]. }
  intros _.
  apply (ordered_bind 1 1 3); [lia | lia | |].
  { apply ordered_silent. apply preserves_scan. intros f p w. reflexivity. }
  intros _.
  apply (ordered_bind 1 2 3); [lia | lia | |].
  { apply (ordered_weaken 2 2); [lia | lia | apply ordered_resize_images]. }
  intros _.
  apply (ordered_bind 2 3 3); [lia | lia | |].
  { apply (ordered_weaken 3 3); [lia | lia | apply ordered_optimize_images]. }
  intros _. apply ordered_finish.
Qed.

End Ordered.

(** X8: in every run, whatever its outcome, the stage calls are made in the
    order of the stages: every [convert()] comes before every
    [convert(jpeg_compression=...)], these before every [resize], and every
    [resize] before every [optimize]. *)
Theorem stages_run_in_order
  (K : collaborators) (q : Z) (s : settings) (all_yaml : list TiffyYaml)
  (d : list (key * image)) :
  StronglySorted le
    (stage_ranks (calls (fst (slim_file K q s all_yaml (initial d))))).
Proof.
  destruct (ordered_slim_file K q s all_yaml (initial d)) as (t & Et & St & _).
  simpl in Et. rewrite Et. exact St.
Qed.

(* ================================================================== *)
(** * A run that raises before the repack                               *)
(* ================================================================== *)

Lemma unseen_bind {X A B : Type} (obs : world -> X) (m : M A)
  (f : A -> M B) :
  preserves obs m -> (forall a, unseen_on_failure obs (f a)) ->
  unseen_on_failure obs (bind m f).
Proof.
  intros Hm Hf w w' e. unfold bind.
  destruct (m w) as [w1 [x | a]] eqn:E; intros H.
  - injection H as <- <-. apply (preserves_run obs m w w1 _ Hm E).
  - rewrite (Hf a w1 w' e H). apply (preserves_run obs m w w1 _ Hm E).
Qed.

Section Failure.

Variable K : collaborators.

(** Before [finish] no part of the pipeline repacks or cleans up; so a
    pipeline that raises has done neither, unless it raised in [finish]. *)
Lemma pipeline_unseen {B : Type} (f : event -> list B) (s : settings)
  (all_yaml : list TiffyYaml) :
  (forall e, f e = [] \/ e = Repack \/ cleanup_of e <> []) ->
  unseen_on_failure (fun w => flat_map f (calls w)) (finish K s) ->
  unseen_on_failure (fun w => flat_map f (calls w)) (pipeline K s all_yaml).
Proof.
  intros Hf Hfin. unfold pipeline.
  assert (Hquiet : forall e, cleanup_of e = [] -> e <> Repack -> f e = []).
  { intros e H1 H2. destruct (Hf e) as [H | [H | H]]; tauto. }
  assert (Hcall : forall e, cleanup_of e = [] -> e <> Repack ->
                            ignores_event (fun w => flat_map f (calls w)) e).
  { intros e H1 H2. apply projection_ignores, Hquiet; assumption. }
  assert (Hinv : forall ev op p,
             (forall q img, cleanup_of (ev q img) = [] /\
                            ev q img <> Repack) ->
             preserves (fun w => flat_map f (calls w)) (invoke ev op p)).
  { intros ev op p H. apply preserves_invoke.
    - intros q img. apply Hcall; apply H.
    - apply projection_ignores_changes. }
  assert (Hsum : forall r g h ps,
             preserves (fun w => flat_map f (calls w)) (summarize r g h ps)).
  { intros r g h ps. apply preserves_summarize. intros b a q.
    apply Hcall; [reflexivity | discriminate]. }
  apply unseen_bind.
  { apply preserves_call, Hcall; [reflexivity | discriminate]. }
  intros _. apply unseen_bind; [apply preserves_get_images |].
  intros d. cbv zeta. apply unseen_bind.
  { unfold convert_tiffs. destruct (nonempty (select "tif" d)).
    - apply preserves_bind.
      + apply preserves_for_each. intros p. apply Hinv.
        intros q img. split; [reflexivity | discriminate].
      + intros _. apply preserves_bind; [apply Hsum |].
        intros _. apply preserves_call, Hcall; [reflexivity | discriminate].
    - apply preserves_call, Hcall; [reflexivity | discriminate]. }
  intros _. apply unseen_bind.
  { unfold convert_pngs. apply preserves_when. apply preserves_bind.
    - apply preserves_for_each. intros p. apply Hinv.
      intros q img. split; [reflexivity | discriminate].
    - intros _. apply preserves_bind; [apply Hsum |].
      intros _. apply preserves_call, Hcall; [reflexivity | discriminate]. }
  intros _. apply unseen_bind.
  { apply preserves_scan, projection_ignores_changes. }
  intros _. apply unseen_bind.
  { unfold resize_images. apply preserves_bind; [apply preserves_get_images |].
    intros d1. apply preserves_bind.
    - apply preserves_for_each. intros p. apply Hinv.
      intros q img. split; [reflexivity | discriminate].
    - intros _. apply preserves_bind; [apply preserves_get_images |].
      intros d2. apply Hsum. }
  intros _. apply unseen_bind.
  { unfold optimize_images.
    apply preserves_bind; [apply preserves_get_images |].
    intros d1. apply preserves_bind.
    - apply preserves_for_each. intros p. apply Hinv.
      intros q img. split; [reflexivity | discriminate].
    - intros _. apply preserves_bind; [apply preserves_get_images |].
      intros d2. apply Hsum. }
  intros _. exact Hfin.
Qed.

End Failure.

Lemma bind_inl {A B : Type} (m : M A) (f : A -> M B) (w w' : world)
  (e : exn) :
  bind m f w = (w', inl e) ->
  m w = (w', inl e) \/
  exists w1 a, m w = (w1, inr a) /\ f a w1 = (w', inl e).
Proof.
  unfold bind. destruct (m w) as [w1 [x | a]]; intros H.
  - left. injection H as <- <-. reflexivity.
  - right. exists w1, a. split; [reflexivity | exact H].
Qed.

Section Before_the_repack.

Variable K : collaborators.

(** A pipeline that raises either raised before line 230, and then it has
    neither repacked nor cleaned up, or it raised in the last part, after
    the summary of the optimize stage was logged. *)
Lemma pipeline_raises (s : settings) (all_yaml : list TiffyYaml)
  (w w' : world) (e : exn) :
  pipeline K s all_yaml w = (w', inl e) ->
  (repacks (calls w') = repacks (calls w) /\
   cleanup (calls w') = cleanup (calls w)) \/
  exists wg,
    finish K s wg = (w', inl e) /\ In OptimizeReport (reports (calls wg)).
Proof.
  intros H. unfold pipeline in H.
  apply bind_inl in H. destruct H as [H | (wa & [] & Ha & H)];
    [discriminate |].
  injection Ha as <-.
  apply bind_inl in H. destruct H as [H | (wb & d & Hb & H)];
    [discriminate |].
  injection Hb as <- <-. cbv zeta in H.
  assert (U : forall (B : Type) (f : event -> list B),
             f Unpack = [] ->
             flat_map f (calls (log Unpack w)) = flat_map f (calls w)).
  { intros B f Hf. rewrite projection_log, Hf. apply app_nil_r. }
  unfold repacks, cleanup.
  apply bind_inl in H. destruct H as [H | (wc & [] & Hc & H)].
  { left. split.
    - quiet_in repack_of H. apply U. reflexivity.
    - quiet_in cleanup_of H. apply U. reflexivity. }
  apply bind_inl in H. destruct H as [H | (wd & [] & Hd & H)].
  { left. split.
    - quiet_in repack_of H. quiet_in repack_of Hc. apply U. reflexivity.
    - quiet_in cleanup_of H. quiet_in cleanup_of Hc. apply U. reflexivity. }
  apply bind_inl in H. destruct H as [H | (we & [] & He & H)].
  { left. split.
    - quiet_in repack_of H. quiet_in repack_of Hd. quiet_in repack_of Hc.
      apply U. reflexivity.
    - quiet_in cleanup_of H. quiet_in cleanup_of Hd. quiet_in cleanup_of Hc.
      apply U. reflexivity. }
  apply bind_inl in H. destruct H as [H | (wf & [] & Hf & H)].
  { left. split.
    - quiet_in repack_of H. quiet_in repack_of He. quiet_in repack_of Hd.
      quiet_in repack_of Hc. apply U. reflexivity.
    - quiet_in cleanup_of H. quiet_in cleanup_of He. quiet_in cleanup_of Hd.
      quiet_in cleanup_of Hc. apply U. reflexivity. }
  apply bind_inl in H. destruct H as [H | (wg & [] & Hg & H)].
  { left. split.
    - quiet_in repack_of H. quiet_in repack_of Hf. quiet_in repack_of He.
      quiet_in repack_of Hd. quiet_in repack_of Hc. apply U. reflexivity.
    - quiet_in cleanup_of H. quiet_in cleanup_of Hf. quiet_in cleanup_of He.
      quiet_in cleanup_of Hd. quiet_in cleanup_of Hc. apply U. reflexivity. }
  right. exists wg. split; [exact H |].
  rewrite (optimize_images_reports K s _ _ Hg).
  apply in_or_app. right. left. reflexivity.
Qed.

(** A run either has neither repacked nor cleaned up, or it has logged the
    summary of the optimize stage; in the second case, if it raised, the
    last call of its trace is the repack. *)
Lemma slim_file_before_the_repack (q : Z) (s : settings)
  (all_yaml : list TiffyYaml) (d : list (key * image)) :
  (repacks (calls (fst (slim_file K q s all_yaml (initial d)))) = [] /\
   cleanup (calls (fst (slim_file K q s all_yaml (initial d)))) = []) \/
  (In OptimizeReport
     (reports (calls (fst (slim_file K q s all_yaml (initial d))))) /\
   (forall e, snd (slim_file K q s all_yaml (initial d)) = inl e ->
      exists t,
        calls (fst (slim_file K q s all_yaml (initial d))) = t ++ [Repack])).
Proof.
  rewrite slim_file_unfold. simpl.
  destruct (pipeline K (apply_quality q s) all_yaml _) as [w' [e | []]] eqn:E;
    simpl.
  - destruct (pipeline_raises _ _ _ _ _ E) as [[Hr Hc] | (wg & Hg & Hin)].
    + left. rewrite Hr, Hc. simpl. unfold repacks, cleanup.
      split; apply projection_of_warnings; reflexivity.
    + right. apply finish_raises in Hg. destruct Hg as (_ & _ & ->).
      split.
      * unfold reports. rewrite projection_log. apply in_or_app. left.
        exact Hin.
      * intros _ _. exists (calls wg). reflexivity.
  - right. split; [| discriminate].
    destruct (pipeline_trace K _ _ _ _ E) as (_ & _ & Hrep & _).
    rewrite Hrep. apply in_or_app. right.
    destruct (nonempty _), (nonempty _ && _); simpl; tauto.
Qed.

End Before_the_repack.

(** X9: the repack (line 230) and the clean-up (lines 246-273: removing the
    unpacked directory, exporting the PDF, deleting the repacked file) come
    after the summary of the optimize stage.  A run whose trace does not
    hold that summary has neither repacked nor cleaned up; in particular a
    run in which a stage call ([convert], [resize] or [optimize]) raised
    has neither repacked nor cleaned up. *)
Theorem failure_before_the_repack_cleans_nothing
  (K : collaborators) (q : Z) (s : settings) (all_yaml : list TiffyYaml)
  (d : list (key * image)) :
  (~ In OptimizeReport
       (reports (calls (fst (slim_file K q s all_yaml (initial d))))) ->
   repacks (calls (fst (slim_file K q s all_yaml (initial d)))) = [] /\
   cleanup (calls (fst (slim_file K q s all_yaml (initial d)))) = []) /\
  (forall x e,
     In x (calls (fst (slim_file K q s all_yaml (initial d)))) ->
     stage_failure K x = Some e ->
     repacks (calls (fst (slim_file K q s all_yaml (initial d)))) = [] /\
     cleanup (calls (fst (slim_file K q s all_yaml (initial d)))) = []).
Proof.
  destruct (slim_file_before_the_repack K q s all_yaml d)
    as [H | [Hin Hlast]].
  - split; intros; exact H.
  - split; [intros Hn; contradiction |].
    intros x e Hx Hf. exfalso.
    destruct (sound_slim_file K q s all_yaml (initial d)) as (t & Et & Ct).
    simpl in Et. rewrite Et in Hx, Hlast.
    apply in_split in Hx. destruct Hx as (t1 & t2 & ->).
    destruct (consistent_split K t1 t2 x _ e Ct Hf) as [-> Hr].
    destruct (snd (slim_file K q s all_yaml (initial d))) as [e' | []];
      [| discriminate].
    destruct (Hlast e' eq_refl) as (t & Ht).
    apply app_inj_tail in Ht. destruct Ht as [_ ->]. discriminate.
Qed.

Lemma failed_conversion_cleans_nothing :
  repacks
    (calls (fst (slim_file Sample.undecodable 1 default_settings []
                   (initial Sample.two_tiffs)))) = [] /\
  cleanup
    (calls (fst (slim_file Sample.undecodable 1 default_settings []
                   (initial Sample.two_tiffs)))) = [].
Proof.
  destruct (failure_before_the_repack_cleans_nothing Sample.undecodable 1
              default_settings [] Sample.two_tiffs) as [H _].
  apply H. vm_compute. tauto.
Defined.

(* ================================================================== *)
(** * The scan, object by object                                        *)
(* ================================================================== *)

Lemma for_each_app {A : Type} (f : A -> M unit) (l1 l2 : list A) (w : world) :
  for_each f (l1 ++ l2) w = (for_each f l1 ;; for_each f l2) w.
Proof.
  revert w. induction l1 as [| x l1 IH]; intros w; simpl.
  - reflexivity.
  - unfold bind in *. destruct (f x w) as [w1 [e | []]].
    + reflexivity.
    + apply IH.
Qed.

Lemma for_each_ext {A : Type} (f g : A -> M unit) (l : list A) (w : world) :
  (forall x w', f x w' = g x w') -> for_each f l w = for_each g l w.
Proof.
  intros H. revert w. induction l as [| x l IH]; intros w; simpl.
  - reflexivity.
  - unfold bind. rewrite H. destruct (g x w) as [w1 [e | []]].
    + reflexivity.
    + apply IH.
Qed.

Lemma for_each_flat_map {A B : Type} (g : B -> M unit) (h : A -> list B)
  (l : list A) (w : world) :
  for_each g (flat_map h l) w = for_each (fun x => for_each g (h x)) l w.
Proof.
  revert w. induction l as [| x l IH]; intros w; simpl.
  - reflexivity.
  - rewrite for_each_app. unfold bind.
    destruct (for_each g (h x) w) as [w1 [e | []]].
    + reflexivity.
    + apply IH.
Qed.

Lemma for_each_map {A B : Type} (g : B -> M unit) (h : A -> B)
  (l : list A) (w : world) :
  for_each g (map h l) w = for_each (fun x => g (h x)) l w.
Proof.
  revert w. induction l as [| x l IH]; intros w; simpl.
  - reflexivity.
  - unfold bind. destruct (g (h x) w) as [w1 [e | []]].
    + reflexivity.
    + apply IH.
Qed.

(** X11: the four nested loops of the scan are one loop over the objects
    of all the files, taken file by file, chunk by chunk and archive by
    archive. *)
Theorem scan_visits_the_objects_in_order
  (all_yaml : list TiffyYaml) (w : world) :
  scan all_yaml w = scan_objects (all_objects all_yaml) w.
Proof.
  unfold scan, scan_objects, all_objects, scan_file.
  rewrite for_each_flat_map. apply for_each_ext. intros f w1.
  rewrite for_each_flat_map. apply for_each_ext. intros c w2.
  rewrite for_each_flat_map. apply for_each_ext. intros a w3.
  rewrite for_each_map. reflexivity.
Qed.

Lemma scan_flat (all_yaml : list TiffyYaml) (w : world) :
  scan all_yaml w = scan_objects (all_objects all_yaml) w.
Proof.
  unfold scan, scan_objects, all_objects, scan_file.
  rewrite for_each_flat_map. apply for_each_ext. intros f w1.
  rewrite for_each_flat_map. apply for_each_ext. intros c w2.
  rewrite for_each_flat_map. apply for_each_ext. intros a w3.
  rewrite for_each_map. reflexivity.
Qed.

Lemma scan_object_untagged (f : TiffyYaml) (obj : pyobject) (w : world) :
  lookup "_pbtype" obj = None ->
  scan_object f obj w = (w, inl (KeyError "_pbtype")).
Proof.
  intros H. unfold scan_object, bind, lift, getitem. rewrite H. reflexivity.
Qed.

(** X12: the scan stops at the first object on which the body of the loop
    raises: the references attached before stay, no later object of any
    file is looked at, and the exception is the outcome.  An object without
    [_pbtype] is such an object: it raises [KeyError]. *)
Theorem scan_stops_at_the_first_error
  (all_yaml : list TiffyYaml) (w w1 : world)
  (before after : list (TiffyYaml * pyobject)) (f : TiffyYaml)
  (obj : pyobject) :
  all_objects all_yaml = before ++ (f, obj) :: after ->
  scan_objects before w = (w1, inr tt) ->
  (forall w2 e, scan_object f obj w1 = (w2, inl e) ->
                scan all_yaml w = (w2, inl e)) /\
  (lookup "_pbtype" obj = None ->
   scan all_yaml w = (w1, inl (KeyError "_pbtype"))).
Proof.
  intros Hsplit Hbefore.
  assert (Hstop : forall w2 e, scan_object f obj w1 = (w2, inl e) ->
                               scan all_yaml w = (w2, inl e)).
  { intros w2 e H. rewrite scan_flat, Hsplit. unfold scan_objects in *.
    rewrite for_each_app. unfold bind at 1. rewrite Hbefore. simpl.
    unfold bind. rewrite H. reflexivity. }
  split; [exact Hstop |].
  intros H. apply Hstop. apply scan_object_untagged, H.
Qed.

Lemma scan_stops_at_an_untagged_object :
  (forall w2 e,
      scan_object Cases.mixed_file Cases.untagged
        (fst (scan_objects [(Cases.mixed_file, Sample.direct 7)]
                (initial Sample.one_png))) = (w2, inl e) ->
      scan [Cases.mixed_file] (initial Sample.one_png) = (w2, inl e)) /\
  (lookup "_pbtype" Cases.untagged = None ->
   scan [Cases.mixed_file] (initial Sample.one_png) =
   (fst (scan_objects [(Cases.mixed_file, Sample.direct 7)]
           (initial Sample.one_png)),
    inl (KeyError "_pbtype"))).
Proof.
  apply (scan_stops_at_the_first_error [Cases.mixed_file]
           (initial Sample.one_png) _
           [(Cases.mixed_file, Sample.direct 7)]
           [(Cases.mixed_file, Sample.direct 7)]
           Cases.mixed_file Cases.untagged).
  - reflexivity.
  - reflexivity.
Defined.

Lemma find_key_from_key (i : nat) (k : key) (d : list (key * image))
  (p : nat) :
  find_key_from i k d = Some p ->
  exists img, nth_error d (p - i) = Some (k, img).
Proof.
  revert i. induction d as [| [k' img] d IH]; intros i; simpl.
  - discriminate.
  - destruct (key_eqb k k') eqn:E.
    + intros H. injection H as <-. apply key_eqb_eq in E. subst k'.
      rewrite Nat.sub_diag. exists img. reflexivity.
    + intros H. pose proof (find_key_from_bound _ _ _ _ H) as Hb.
      destruct (IH _ H) as (img' & Hn). exists img'.
      replace (p - i)%nat with (S (p - S i)) by lia. exact Hn.
Qed.

Lemma find_key_key (k : key) (d : list (key * image)) (p : nat) :
  find_key k d = Some p -> exists img, nth_error d p = Some (k, img).
Proof.
  intros H. apply find_key_from_key in H. rewrite Nat.sub_0_r in H. exact H.
Qed.

(** What the body of the loop does to the world: nothing, or one reference
    more for the image whose key the object resolves to. *)
Lemma scan_object_effect (f : TiffyYaml) (obj : pyobject) (w : world) :
  fst (scan_object f obj w) = w \/
  exists k p r,
    resolved_key obj = Some k /\
    find_key k (images_dict w) = Some p /\
    reference_of f obj = Some r /\
    scan_object f obj w = (change (add_reference r) p w, inr tt).
Proof.
  unfold resolved_key, reference_of.
  destruct (getitem obj "_pbtype") as [e | tag] eqn:Ht.
  - left. unfold scan_object, bind, lift. rewrite Ht. reflexivity.
  - destruct (eq_str tag "TSD.ImageArchive") eqn:Hd.
    + destruct (direct_identifier obj) as [e | v] eqn:Hv.
      * left. unfold scan_object, bind, lift, when. rewrite Ht, Hd, Hv.
        reflexivity.
      * rewrite (scan_object_direct f obj w tag v Ht Hd Hv). simpl.
        unfold attach.
        destruct (hash v) as [e | k]; [left; reflexivity |].
        destruct (find_key k (images_dict w)) as [p |] eqn:Hf;
          [| left; reflexivity].
        right. exists k, p, (slide_reference f obj). repeat split. exact Hf.
    + destruct (eq_str tag "KN.SlideStyleArchive") eqn:Hs.
      * rewrite (scan_object_style f obj w tag Ht Hs).
        destruct (style_has_image obj) as [e | []]; try (left; reflexivity).
        destruct (style_identifier obj) as [e | v]; [left; reflexivity |].
        simpl. unfold attach.
        destruct (hash v) as [e | k]; [left; reflexivity |].
        destruct (find_key k (images_dict w)) as [p |] eqn:Hf;
          [| left; reflexivity].
        right. exists k, p, (slide_style_reference f obj).
        repeat split. exact Hf.
      * left. unfold scan_object, bind, lift, when, ret.
        rewrite Ht, Hd, Hs. reflexivity.
Qed.

(** X13: an image whose key no object of the files resolves to is left as
    it is by the scan, whether the scan returns or raises. *)
Theorem unreferenced_image_is_untouched
  (all_yaml : list TiffyYaml) (w : world) (p : nat) (k : key) (img : image) :
  nth_error (images_dict w) p = Some (k, img) ->
  (forall fo, In fo (all_objects all_yaml) -> resolved_key (snd fo) <> Some k) ->
  nth_error (images_dict (fst (scan all_yaml w))) p = Some (k, img).
Proof.
  rewrite scan_flat. unfold scan_objects.
  generalize (all_objects all_yaml) as l. intros l. revert w.
  induction l as [| [f obj] l IH]; intros w Hp Hno; simpl.
  - exact Hp.
  - assert (Hstep : nth_error (images_dict (fst (scan_object f obj w))) p =
                    Some (k, img)).
    { destruct (scan_object_effect f obj w)
        as [-> | (k' & p' & r & Hk & Hf & _ & ->)]; [exact Hp |].
      simpl. rewrite nth_error_alter_image.
      destruct (Nat.eqb_spec p p') as [-> | _]; [| exact Hp].
      destruct (find_key_key _ _ _ Hf) as (img' & Hn).
      assert (k' = k) by congruence. subst k'.
      exfalso. apply (Hno (f, obj)); [left; reflexivity | exact Hk]. }
    unfold bind.
    destruct (scan_object f obj w) as [w1 [e | []]]; simpl in *.
    + exact Hstep.
    + apply IH; [exact Hstep |].
      intros fo Hin. apply Hno. right. exact Hin.
Qed.

Lemma image_one_is_untouched :
  nth_error
    (images_dict
       (fst (scan [Sample.slide_b; Sample.slide_a]
               (initial Cases.tiff_and_png)))) 0 =
  Some (KInt 1, Cases.tiff).
Proof.
  apply (unreferenced_image_is_untouched [Sample.slide_b; Sample.slide_a]
           (initial Cases.tiff_and_png) 0 (KInt 1) Cases.tiff).
  - reflexivity.
  - intros fo [<- | [<- | []]]; discriminate.
Defined.

(** An object that resolves to a key of the index changes the world. *)
Lemma scan_object_match (f : TiffyYaml) (obj : pyobject) (w : world)
  (k : key) (p : nat) :
  resolved_key obj = Some k ->
  find_key k (images_dict w) = Some p ->
  exists r,
    reference_of f obj = Some r /\
    scan_object f obj w = (change (add_reference r) p w, inr tt).
Proof.
  intros Hk Hf. unfold resolved_key in Hk. unfold reference_of.
  destruct (getitem obj "_pbtype") as [e | tag] eqn:Ht; [discriminate |].
  destruct (eq_str tag "TSD.ImageArchive") eqn:Hd.
  - destruct (and_then (direct_identifier obj) hash) as [e | k0] eqn:Hv;
      [discriminate |].
    injection Hk as ->. apply and_then_inr in Hv.
    destruct Hv as (v & Hv & Hh).
    exists (slide_reference f obj). split; [reflexivity |].
    rewrite (scan_object_direct f obj w tag v Ht Hd Hv).
    rewrite (attach_run _ _ _ _ Hh), Hf. reflexivity.
  - destruct (eq_str tag "KN.SlideStyleArchive") eqn:Hs; [| discriminate].
    destruct (style_has_image obj) as [e | []] eqn:Hi; try discriminate.
    destruct (and_then (style_identifier obj) hash) as [e | k0] eqn:Hv;
      [discriminate |].
    injection Hk as ->. apply and_then_inr in Hv.
    destruct Hv as (v & Hv & Hh).
    exists (slide_style_reference f obj). split; [reflexivity |].
    rewrite (scan_object_style f obj w tag Ht Hs), Hi, Hv.
    rewrite (attach_run _ _ _ _ Hh), Hf. reflexivity.
Qed.

(** X14: an object of a recognised type whose identifier is a key of the
    index attaches exactly one reference, to the image with that key: a
    slide reference for a [TSD.ImageArchive], a slide style reference for a
    [KN.SlideStyleArchive], with the file and the object; and the body of
    the loop returns. *)
Theorem matching_object_attaches_one_reference
  (f : TiffyYaml) (obj : pyobject) (w : world) (k : key) (p : nat) :
  resolved_key obj = Some k ->
  find_key k (images_dict w) = Some p ->
  exists r img,
    reference_of f obj = Some r /\
    ref_file r = yaml_file f /\
    ref_object r = obj /\
    nth_error (images_dict w) p = Some (k, img) /\
    scan_object f obj w = (change (add_reference r) p w, inr tt) /\
    nth_error (images_dict (fst (scan_object f obj w))) p =
      Some (k, with_more_references img [r]) /\
    reference_count (images_dict (fst (scan_object f obj w))) =
      S (reference_count (images_dict w)).
Proof.
  intros Hk Hf.
  destruct (find_key_key _ _ _ Hf) as (img & Hn).
  assert (Hlt : (p < length (images_dict w))%nat).
  { apply nth_error_Some. congruence. }
  destruct (scan_object_match f obj w k p Hk Hf) as (r & Hr & Hrun).
  exists r, img. rewrite Hrun. simpl.
  split; [exact Hr |].
  assert (Hfo : ref_file r = yaml_file f /\ ref_object r = obj).
  { unfold reference_of in Hr.
    destruct (getitem obj "_pbtype") as [e | tag]; [discriminate |].
    destruct (eq_str tag "TSD.ImageArchive");
      [injection Hr as <-; split; reflexivity |].
    destruct (eq_str tag "KN.SlideStyleArchive");
      [injection Hr as <-; split; reflexivity | discriminate]. }
  destruct Hfo as [Hfile Hobj].
  repeat split; try assumption.
  - rewrite nth_error_alter_image, Nat.eqb_refl, Hn. reflexivity.
  - apply reference_count_attach. exact Hlt.
Qed.

Lemma style_object_attaches_a_style_reference :
  exists r img,
    reference_of Sample.slide_a (Cases.style 7) = Some r /\
    ref_file r = yaml_file Sample.slide_a /\
    ref_object r = Cases.style 7 /\
    nth_error (images_dict (initial Cases.tiff_and_png)) 1 =
      Some (KInt 7, img) /\
    scan_object Sample.slide_a (Cases.style 7) (initial Cases.tiff_and_png) =
      (change (add_reference r) 1 (initial Cases.tiff_and_png), inr tt) /\
    nth_error
      (images_dict
         (fst (scan_object Sample.slide_a (Cases.style 7)
                 (initial Cases.tiff_and_png)))) 1 =
      Some (KInt 7, with_more_references img [r]) /\
    reference_count
      (images_dict
         (fst (scan_object Sample.slide_a (Cases.style 7)
                 (initial Cases.tiff_and_png)))) =
      S (reference_count (images_dict (initial Cases.tiff_and_png))).
Proof.
  apply (matching_object_attaches_one_reference Sample.slide_a
           (Cases.style 7) (initial Cases.tiff_and_png) (KInt 7) 1).
  - reflexivity.
  - reflexivity.
Defined.

Lemma scan_object_outcome (f : TiffyYaml) (obj : pyobject) (w w' : world) :
  snd (scan_object f obj w) = snd (scan_object f obj w').
Proof.
  destruct (getitem obj "_pbtype") as [e | tag] eqn:Ht.
  - unfold scan_object, bind, lift. rewrite Ht. reflexivity.
  - destruct (eq_str tag "TSD.ImageArchive") eqn:Hd.
    + destruct (direct_identifier obj) as [e | v] eqn:Hv.
      * unfold scan_object, bind, lift, when. rewrite Ht, Hd, Hv.
        reflexivity.
      * rewrite !(scan_object_direct f obj _ tag v Ht Hd Hv).
        unfold attach. destruct (hash v); [reflexivity |].
        destruct (find_key k (images_dict w)),
          (find_key k (images_dict w')); reflexivity.
    + destruct (eq_str tag "KN.SlideStyleArchive") eqn:Hs.
      * rewrite !(scan_object_style f obj _ tag Ht Hs).
        destruct (style_has_image obj) as [e | []]; try reflexivity.
        destruct (style_identifier obj) as [e | v]; [reflexivity |].
        unfold attach. destruct (hash v); [reflexivity |].
        destruct (find_key k (images_dict w)),
          (find_key k (images_dict w')); reflexivity.
      * unfold scan_object, bind, lift, when, ret.
        rewrite Ht, Hd, Hs. reflexivity.
Qed.

(** X15: whether the scan returns or raises, and with which exception, is
    decided by the metadata files alone: it is the same for every index of
    images.  An identifier that is a key and one that is not never make the
    difference between returning and raising. *)
Theorem scan_outcome_depends_on_the_files_only
  (all_yaml : list TiffyYaml) (w w' : world) :
  snd (scan all_yaml w) = snd (scan all_yaml w').
Proof.
  rewrite !scan_flat. unfold scan_objects.
  generalize (all_objects all_yaml) as l. intros l. revert w w'.
  induction l as [| [f obj] l IH]; intros w w'; simpl.
  - reflexivity.
  - unfold bind. pose proof (scan_object_outcome f obj w w') as H.
    destruct (scan_object f obj w) as [w1 [e | []]],
      (scan_object f obj w') as [w1' [e' | []]]; simpl in *;
      try discriminate.
    + exact H.
    + apply IH.
Qed.

(* ================================================================== *)
(** * The TIFF and PNG lists                                            *)
(* ================================================================== *)

Lemma prefix_spec (sub s : string) :
  String.prefix sub s = true <-> exists b, s = (sub ++ b)%string.
Proof.
  revert s. induction sub as [| c sub IH]; intros s.
  - split; [| destruct s; reflexivity].
    intros _. exists s. reflexivity.
  - destruct s as [| c' s]; simpl.
    + split; [discriminate | intros (b & H); discriminate].
    + destruct (Ascii.ascii_dec c c') as [-> | Hne].
      * rewrite IH. split.
        -- intros (b & ->). exists b. reflexivity.
        -- intros (b & H). injection H as ->. exists b. reflexivity.
      * split; [discriminate |].
        intros (b & H). injection H as H _. congruence.
Qed.

Lemma contains_unfold (sub s : string) :
  contains sub s =
  if String.prefix sub s then true
  else match s with
       | EmptyString => false
       | String _ s' => contains sub s'
       end.
Proof. destruct s; reflexivity. Qed.

Lemma contains_spec (sub s : string) :
  contains sub s = true <-> exists a b, s = (a ++ sub ++ b)%string.
Proof.
  induction s as [| c s IH]; rewrite contains_unfold.
  - destruct (String.prefix sub "") eqn:E.
    + split; [| reflexivity]. intros _. apply prefix_spec in E.
      destruct E as (b & E). exists "", b. exact E.
    + split; [discriminate |]. intros (a & b & H).
      destruct a; simpl in H; [| discriminate].
      assert (String.prefix sub "" = true)
        by (apply prefix_spec; exists b; exact H).
      congruence.
  - destruct (String.prefix sub (String c s)) eqn:E.
    + split; [| reflexivity]. intros _. apply prefix_spec in E.
      destruct E as (b & E). exists "", b. exact E.
    + rewrite IH. split.
      * intros (a & b & ->). exists (String c a), b. reflexivity.
      * intros (a & b & H). destruct a as [| c' a]; simpl in H.
        -- assert (String.prefix sub (String c s) = true)
             by (apply prefix_spec; exists b; exact H).
           congruence.
        -- injection H as _ ->. exists a, b. reflexivity.
Qed.

Lemma select_from_sorted (i : nat) (sub : string) (d : list (key * image)) :
  StronglySorted lt (select_from i sub d).
Proof.
  revert i. induction d as [| [k img] d IH]; intros i; simpl.
  - constructor.
  - destruct (contains sub (filename_suffix img)); [| apply IH].
    constructor; [apply IH |].
    apply Forall_forall. intros p H. apply select_from_spec in H. lia.
Qed.

(** X16: the list comprehensions of lines 95-100 take exactly the images
    whose suffix has the given text as a substring, compared as it is
    written (".TIF" is not taken for "tif"), each once and in the order of
    the dict. *)
Theorem selection_by_suffix
  (sub : string) (d : list (key * image)) (p : nat) :
  (In p (select sub d) <->
   exists k img a b,
     nth_error d p = Some (k, img) /\
     filename_suffix img = (a ++ sub ++ b)%string) /\
  StronglySorted lt (select sub d) /\
  select "tif" [(KInt 1, Cases.upper_tiff)] = [].
Proof.
  split; [| split; [apply select_from_sorted | reflexivity]].
  unfold select. rewrite select_from_spec, Nat.sub_0_r. split.
  - intros (_ & k & img & H & Hc). apply contains_spec in Hc.
    destruct Hc as (a & b & Hc). exists k, img, a, b. split; assumption.
  - intros (k & img & a & b & H & Hs). split; [lia |].
    exists k, img. split; [exact H |].
    apply contains_spec. exists a, b. exact Hs.
Qed.

(* ================================================================== *)
(** * [autopdf]                                                         *)
(* ================================================================== *)

Lemma exports_of_cleanup (t : list event) :
  exports t = exports (cleanup t).
Proof.
  unfold exports, cleanup.
  induction t as [| e t IH]; simpl; [reflexivity |].
  rewrite flat_map_app, <- IH. destruct e; simpl; reflexivity.
Qed.

Lemma exports_app (a b : list event) :
  exports (a ++ b) = exports a ++ exports b.
Proof. apply flat_map_app. Qed.

(** What one call of [slim_file] adds to the exports and to the warnings
    of the trace. *)
Lemma slim_file_adds (K : collaborators) (q : Z) (s : settings)
  (all_yaml : list TiffyYaml) (w w' : world) (r : exn + unit) :
  slim_file K q s all_yaml w = (w', r) ->
  warnings (calls w') = warnings (calls w) ++ due_warnings (apply_quality q s) /\
  exports (calls w') =
    exports (calls w) ++
    match r with
    | inr _ =>
        if export_pdf (apply_quality q s)
        then [(pdf_suffix s, pdf_all_stages s)]
        else []
    | inl _ => []
    end.
Proof.
  rewrite slim_file_unfold. intros E. split.
  - rewrite (preserves_run (fun w => warnings (calls w)) _ _ _ _
               (pipeline_preserves _ QualityWarning K warnings_blind _ _
                  (or_introl eq_refl)) E).
    simpl. unfold warnings. rewrite flat_map_app. f_equal.
    apply warnings_of_logged.
  - assert (Hw : exports
                   (calls w ++
                    map LogWarning (due_warnings (apply_quality q s))) =
                 exports (calls w)).
    { unfold exports. rewrite flat_map_app, projection_of_warnings
        by reflexivity. apply app_nil_r. }
    destruct r as [e | []].
    + rewrite app_nil_r, <- Hw. unfold exports.
      apply (pipeline_unseen K export_of _ _
               ltac:(intros []; simpl; auto; right; right; discriminate)
               ltac:(intros x x' e' H; apply finish_raises in H;
                     destruct H as (_ & _ & ->);
                     rewrite projection_log; apply app_nil_r)
               _ _ _ E).
    + destruct (pipeline_trace K _ _ _ _ E) as (_ & _ & _ & Hc & _).
      simpl in Hc.
      assert (Hu : untouched (apply_quality q s) = untouched s).
      { unfold apply_quality.
        destruct q as [|[[p|p|]|[p|p|]|]|p]; reflexivity. }
      unfold untouched in Hu. injection Hu as Ha Hb Hd.
      rewrite Ha, Hb, Hd in Hc.
      rewrite exports_of_cleanup, Hc, exports_app, <- exports_of_cleanup, Hw.
      f_equal.
      destruct (keep_unpacked s), (export_pdf (apply_quality q s)),
        (applescript_code K =? 0); reflexivity.
Qed.

Lemma slim_file_on_adds (o : opened) (q : Z) (s : settings) (w w' : world)
  (r : exn + unit) :
  slim_file_on o q s w = (w', r) ->
  warnings (calls w') = warnings (calls w) ++ due_warnings (apply_quality q s) /\
  exports (calls w') =
    exports (calls w) ++
    match r with
    | inr _ =>
        if export_pdf (apply_quality q s)
        then [(pdf_suffix s, pdf_all_stages s)]
        else []
    | inl _ => []
    end.
Proof.
  unfold slim_file_on, bind, open_file. intros H.
  apply (slim_file_adds _ _ _ _ _ _ _ H).
Qed.

(** X17: [autopdf] makes its three calls one after the other and guards
    none: when the first call raises, [autopdf] raises the same exception
    and the calls after it are not made.  An [autopdf] that returns has
    exported the three PDFs in the order "_q0", "_q1", "_q2" and has logged
    the two quality warnings once each (in the call with selector 2).
    Whatever the outcome, the PDFs exported are the first ones of "_q0",
    "_q1", "_q2", in this order. *)
Theorem autopdf_exports_in_order
  (pdf_all_stages : bool) (o0 o1 o2 : opened) :
  (forall w1 e,
      slim_file_on o0 0 (autopdf_settings pdf_all_stages "_q0") (initial []) =
        (w1, inl e) ->
      autopdf pdf_all_stages o0 o1 o2 (initial []) = (w1, inl e)) /\
  (snd (autopdf pdf_all_stages o0 o1 o2 (initial [])) = inr tt ->
   exports (calls (fst (autopdf pdf_all_stages o0 o1 o2 (initial [])))) =
     [("_q0", pdf_all_stages); ("_q1", pdf_all_stages);
      ("_q2", pdf_all_stages)] /\
   warnings (calls (fst (autopdf pdf_all_stages o0 o1 o2 (initial [])))) =
     [ResizeBelow2; JpegBelow80]) /\
  (exists rest,
      exports (calls (fst (autopdf pdf_all_stages o0 o1 o2 (initial [])))) ++
        rest =
      [("_q0", pdf_all_stages); ("_q1", pdf_all_stages);
       ("_q2", pdf_all_stages)]).
Proof.
  unfold autopdf.
  split.
  { intros w1 e H. unfold bind at 1. rewrite H. reflexivity. }
  unfold bind.
  destruct (slim_file_on o0 0 (autopdf_settings pdf_all_stages "_q0")
              (initial [])) as [w1 [e0 | []]] eqn:E0.
  - apply slim_file_on_adds in E0. destruct E0 as [_ X0]. simpl in *.
    split; [discriminate |]. rewrite X0. eexists. reflexivity.
  - apply slim_file_on_adds in E0. destruct E0 as [W0 X0].
    destruct (slim_file_on o1 1 (autopdf_settings pdf_all_stages "_q1") w1)
      as [w2 [e1 | []]] eqn:E1.
    + apply slim_file_on_adds in E1. destruct E1 as [_ X1]. simpl in *.
      split; [discriminate |]. rewrite X1, X0. eexists. reflexivity.
    + apply slim_file_on_adds in E1. destruct E1 as [W1 X1].
      destruct (slim_file_on o2 2 (autopdf_settings pdf_all_stages "_q2") w2)
        as [w3 [e2 | []]] eqn:E2.
      * apply slim_file_on_adds in E2. destruct E2 as [_ X2]. simpl in *.
        split; [discriminate |]. rewrite X2, X1, X0. eexists. reflexivity.
      * apply slim_file_on_adds in E2. destruct E2 as [W2 X2]. simpl in *.
        rewrite X2, X1, X0, W2, W1, W0. split.
        -- intros _. split; reflexivity.
        -- exists []. reflexivity.
Qed.

Lemma autopdf_on_one_png :
  exports
    (calls (fst (autopdf true Cases.opened_png Cases.opened_png
                   Cases.opened_png (initial [])))) =
    [("_q0", true); ("_q1", true); ("_q2", true)] /\
  warnings
    (calls (fst (autopdf true Cases.opened_png Cases.opened_png
                   Cases.opened_png (initial [])))) =
    [ResizeBelow2; JpegBelow80].
Proof.
  destruct (autopdf_exports_in_order true Cases.opened_png Cases.opened_png
              Cases.opened_png) as (_ & H & _).
  apply H. reflexivity.
Defined.

(* ================================================================== *)
(** * The number of references                                          *)
(* ================================================================== *)

Lemma find_key_from_keys (i : nat) (k : key) (d d' : list (key * image)) :
  map fst d = map fst d' -> find_key_from i k d = find_key_from i k d'.
Proof.
  revert i d'. induction d as [| [k1 img1] d IH]; intros i [| [k2 img2] d'] H;
    simpl in *; try discriminate.
  - reflexivity.
  - injection H as -> H. rewrite (IH (S i) d' H). reflexivity.
Qed.

Lemma matches_keys (d d' : list (key * image)) (obj : pyobject) :
  map fst d = map fst d' -> matches d obj = matches d' obj.
Proof.
  intros H. unfold matches, has_key, find_key.
  destruct (resolved_key obj) as [k |]; [| reflexivity].
  rewrite (find_key_from_keys 0 k d d' H). reflexivity.
Qed.

(** The body of the loop, when it returns, has attached one reference if
    the object resolves to a key of the index and none otherwise. *)
Lemma scan_object_count (f : TiffyYaml) (obj : pyobject) (w w1 : world) :
  scan_object f obj w = (w1, inr tt) ->
  reference_count (images_dict w1) =
    (reference_count (images_dict w) +
     (if matches (images_dict w) obj then 1 else 0))%nat /\
  keys w1 = keys w.
Proof.
  intros H. unfold matches, has_key.
  destruct (resolved_key obj) as [k |] eqn:Hk.
  - destruct (find_key k (images_dict w)) as [p |] eqn:Hf.
    + destruct (scan_object_match f obj w k p Hk Hf) as (r & _ & Hrun).
      rewrite Hrun in H. injection H as <-. simpl. split.
      * apply find_key_from_bound in Hf.
        rewrite reference_count_attach by lia. lia.
      * apply alter_image_keys.
    + destruct (scan_object_effect f obj w)
        as [Hsame | (k' & p' & r & Hk' & Hf' & _)].
      * rewrite H in Hsame. simpl in Hsame. subst w1. split; [lia | reflexivity].
      * congruence.
  - destruct (scan_object_effect f obj w)
      as [Hsame | (k' & p' & r & Hk' & _)]; [| congruence].
    rewrite H in Hsame. simpl in Hsame. subst w1. split; [lia | reflexivity].
Qed.

(** X18: a scan that returns has attached exactly one reference for every
    object that resolves to a key of the index, and none for any other
    object: two objects that name the same image give it two references,
    and no occurrence is lost. *)
Theorem scan_attaches_one_reference_per_match
  (all_yaml : list TiffyYaml) (w w' : world) :
  scan all_yaml w = (w', inr tt) ->
  reference_count (images_dict w') =
    (reference_count (images_dict w) +
     length (filter (fun fo => matches (images_dict w) (snd fo))
               (all_objects all_yaml)))%nat.
Proof.
  rewrite scan_flat. unfold scan_objects.
  generalize (all_objects all_yaml) as l. intros l. revert w.
  induction l as [| [f obj] l IH]; intros w H; simpl in *.
  - injection H as <-. lia.
  - apply bind_inr in H. destruct H as (w1 & [] & H1 & H2).
    destruct (scan_object_count f obj w w1 H1) as [Hc Hk].
    rewrite (IH w1 H2), Hc.
    rewrite (filter_ext _ (fun fo => matches (images_dict w) (snd fo)))
      by (intros fo; apply matches_keys; exact Hk).
    destruct (matches (images_dict w) obj); simpl; lia.
Qed.

Lemma two_slides_give_two_references :
  reference_count
    (images_dict
       (fst (scan [Sample.slide_b; Sample.slide_a]
               (initial Cases.tiff_and_png)))) =
    (reference_count (images_dict (initial Cases.tiff_and_png)) +
     length (filter
               (fun fo => matches (images_dict (initial Cases.tiff_and_png))
                            (snd fo))
               (all_objects [Sample.slide_b; Sample.slide_a])))%nat.
Proof.
  apply (scan_attaches_one_reference_per_match
           [Sample.slide_b; Sample.slide_a] (initial Cases.tiff_and_png)).
  reflexivity.
Defined.

(* ================================================================== *)
(** * The records after a run, with the references of the scan          *)
(* ================================================================== *)

Lemma attached_by_keys (d d' : list (key * image)) (p : nat)
  (fo : TiffyYaml * pyobject) :
  map fst d = map fst d' -> attached_by d p fo = attached_by d' p fo.
Proof.
  intros H. unfold attached_by, find_key.
  destruct (resolved_key (snd fo)) as [k |]; [| reflexivity].
  rewrite (find_key_from_keys 0 k d d' H). reflexivity.
Qed.

(** The body of the loop, when it returns, leaves in every image what it
    held, with the reference of the object if the object resolves to it. *)
Lemma scan_object_attached (f : TiffyYaml) (obj : pyobject) (w w1 : world)
  (p : nat) (k : key) (img : image) :
  scan_object f obj w = (w1, inr tt) ->
  nth_error (images_dict w) p = Some (k, img) ->
  nth_error (images_dict w1) p =
    Some (k, with_more_references img
               (attached_by (images_dict w) p (f, obj))) /\
  keys w1 = keys w.
Proof.
  intros H Hp. unfold attached_by. simpl.
  destruct (resolved_key obj) as [k' |] eqn:Hk.
  - destruct (find_key k' (images_dict w)) as [p' |] eqn:Hf.
    + destruct (scan_object_match f obj w k' p' Hk Hf) as (r & Hr & Hrun).
      rewrite Hrun in H. injection H as <-. rewrite Hr. simpl.
      split; [| apply alter_image_keys].
      rewrite nth_error_alter_image, Hp, Nat.eqb_sym.
      destruct (Nat.eqb p' p); simpl.
      * reflexivity.
      * rewrite with_more_references_nil. reflexivity.
    + destruct (scan_object_effect f obj w)
        as [Hsame | (k2 & p2 & r & Hk2 & Hf2 & _)].
      * rewrite H in Hsame. simpl in Hsame. subst w1.
        rewrite with_more_references_nil. split; [exact Hp | reflexivity].
      * congruence.
  - destruct (scan_object_effect f obj w)
      as [Hsame | (k2 & p2 & r & Hk2 & _)]; [| congruence].
    rewrite H in Hsame. simpl in Hsame. subst w1.
    rewrite with_more_references_nil. split; [exact Hp | reflexivity].
Qed.

(** A scan that returns leaves in every image what it held, followed by
    the references of the objects that resolve to it, in the order of the
    loops. *)
Lemma scan_attached (all_yaml : list TiffyYaml) (w w' : world) (p : nat)
  (k : key) (img : image) :
  scan all_yaml w = (w', inr tt) ->
  nth_error (images_dict w) p = Some (k, img) ->
  nth_error (images_dict w') p =
    Some (k, with_more_references img
               (scanned_references (images_dict w) p all_yaml)).
Proof.
  rewrite scan_flat. unfold scan_objects, scanned_references.
  generalize (all_objects all_yaml) as l. intros l. revert w img.
  induction l as [| [f obj] l IH]; intros w img H Hp; simpl in *.
  - injection H as <-. rewrite with_more_references_nil. exact Hp.
  - apply bind_inr in H. destruct H as (w1 & [] & H1 & H2).
    destruct (scan_object_attached f obj w w1 p k img H1 Hp) as [Hp1 Hk].
    rewrite (IH w1 _ H2 Hp1), with_more_references_app.
    rewrite (flat_map_ext _ (attached_by (images_dict w) p))
      by (intros fo; apply attached_by_keys; exact Hk).
    reflexivity.
Qed.

Section Lineage_of_a_record.

Variable K : collaborators.

Lemma pipeline_records (s : settings) (all_yaml : list TiffyYaml)
  (w w' : world) (p : nat) (k : key) (img : image) :
  pipeline K s all_yaml w = (w', inr tt) ->
  nth_error (images_dict w) p = Some (k, img) ->
  exists img_t img_p img_r img_o,
    (if contains "tif" (filename_suffix img)
     then convert K None img = inr img_t
     else img_t = img) /\
    (if png_convert s && contains "png" (filename_suffix img)
     then convert K (Some (jpeg_compression s)) img_t = inr img_p
     else img_p = img_t) /\
    resize K (resize_factor s)
      (with_more_references img_p
         (scanned_references (images_dict w) p all_yaml)) = inr img_r /\
    optimize K (jpeg_compression s) img_r = inr img_o /\
    nth_error (images_dict w') p = Some (k, img_o).
Proof.
  intros H Hp. apply pipeline_returns in H.
  destruct H as (wc & wd & we & wf & wg & Hc & Hd & He & Hf & Hg & Hh).
  destruct (convert_tiffs_images K (log Unpack w) wc p k img Hc Hp)
    as (img_t & Ht & Hpc).
  destruct (convert_pngs_images K s _ _ _ p k img img_t Hd Hp Hpc)
    as (img_p & Hpng & Hpd).
  destruct (convert_tiffs_trace K _ _ _ (select_in_range "tif" _) Hc)
    as (_ & _ & Kc).
  destruct (convert_pngs_trace K s _ _ _
              (in_range_keys _ (log Unpack w) wc Kc
                 (select_in_range "png" _)) Hd)
    as (_ & _ & _ & Kd).
  pose proof (scan_attached all_yaml _ _ p k img_p He Hpd) as Hpe.
  unfold scanned_references in Hpe.
  rewrite (flat_map_ext _ (attached_by (images_dict w) p)) in Hpe
    by (intros fo; apply attached_by_keys; unfold keys in *;
        rewrite Kd, Kc; reflexivity).
  destruct (resize_images_images K s _ _ p k _ Hf Hpe) as (img_r & Hr & Hpf).
  destruct (optimize_images_images K s _ _ p k _ Hg Hpf)
    as (img_o & Ho & Hpg).
  exists img_t, img_p, img_r, img_o.
  rewrite (preserves_run images_dict _ _ _ _ (finish_keeps_images K s) Hh).
  repeat split; assumption.
Qed.

End Lineage_of_a_record.

(** X7: for every selector and every setting, a run that returns leaves in
    every record the result of the stages in this order: [convert()] if the
    suffix contains "tif"; [convert(jpeg_compression=...)] if PNG
    conversion is in effect and the suffix, as it was before any
    conversion, contains "png"; then [resize] with the effective factor,
    entered with exactly the references the scan attached to the record
    (those of the objects that resolve to it, in the order of the loops);
    then [optimize] with the effective JPEG quality. *)
Theorem completed_run_records
  (K : collaborators) (q : Z) (s : settings) (all_yaml : list TiffyYaml)
  (d : list (key * image)) (p : nat) (k : key) (img : image) :
  snd (slim_file K q s all_yaml (initial d)) = inr tt ->
  nth_error d p = Some (k, img) ->
  exists img_t img_p img_r img_o,
    (if contains "tif" (filename_suffix img)
     then convert K None img = inr img_t
     else img_t = img) /\
    (if png_convert (apply_quality q s) &&
        contains "png" (filename_suffix img)
     then convert K (Some (jpeg_compression (apply_quality q s))) img_t =
          inr img_p
     else img_p = img_t) /\
    resize K (resize_factor (apply_quality q s))
      (with_more_references img_p (scanned_references d p all_yaml)) =
      inr img_r /\
    optimize K (jpeg_compression (apply_quality q s)) img_r = inr img_o /\
    nth_error (images_dict (fst (slim_file K q s all_yaml (initial d)))) p =
      Some (k, img_o).
Proof.
  rewrite slim_file_unfold. simpl.
  destruct (pipeline K (apply_quality q s) all_yaml _) as [w' r] eqn:E.
  simpl. intros -> Hp.
  apply (pipeline_records K _ _ _ _ p k img E Hp).
Qed.

Lemma records_of_a_tiff_and_a_png :
  exists img_t img_p img_r img_o,
    (if contains "tif" (filename_suffix Sample.png)
     then convert Sample.passthrough None Sample.png = inr img_t
     else img_t = Sample.png) /\
    (if png_convert (apply_quality 1 default_settings) &&
        contains "png" (filename_suffix Sample.png)
     then convert Sample.passthrough
            (Some (jpeg_compression (apply_quality 1 default_settings)))
            img_t = inr img_p
     else img_p = img_t) /\
    resize Sample.passthrough
      (resize_factor (apply_quality 1 default_settings))
      (with_more_references img_p
         (scanned_references Cases.tiff_and_png 1
            [Sample.slide_b; Sample.slide_a])) = inr img_r /\
    optimize Sample.passthrough
      (jpeg_compression (apply_quality 1 default_settings)) img_r =
      inr img_o /\
    nth_error
      (images_dict
         (fst (slim_file Sample.passthrough 1 default_settings
                 [Sample.slide_b; Sample.slide_a]
                 (initial Cases.tiff_and_png)))) 1 =
      Some (KInt 7, img_o).
Proof.
  apply (completed_run_records Sample.passthrough 1 default_settings
           [Sample.slide_b; Sample.slide_a] Cases.tiff_and_png 1 (KInt 7)
           Sample.png).
  - reflexivity.
  - reflexivity.
Defined.
